(** * eDEX-UI secure terminal control plane

    A shallow embedding of
    - [src/_preload.js]: the context-isolation preload script (the
      channel allowlist [ALLOWED_CHANNELS], [isChannelAllowed] and the
      [secureAPI] bridge over Electron's [ipcRenderer]);
    - the WebSocket gateway code of [SECURITY_FIXES.md] ([verifyClient]
      of Fix #1 and the authentication-token connection handler).

    JavaScript strings are Rocq strings; the allowlists only hold ASCII
    text, so prefix tests on bytes and on UTF-16 code units agree. *)

From Stdlib Require Import Ascii DecimalString.
From stdpp Require Import gmap strings list fin_maps sorting.

Set Warnings "-register-all,-clear-no-such-hyp".
Open Scope string_scope.
Open Scope list_scope.
Open Scope nat_scope.

(** ** JavaScript values met in the two programs *)

Inductive JSValue : Type :=
  | JSUndefined
  | JSNull
  | JSBool (b : bool)
  | JSNumber (n : Z)
  | JSString (s : string)
  | JSArray (elems : list JSValue)
  | JSObject (props : list (string * JSValue))
  | JSFunction (name : string)
  | JSPrototype.   (* the object Object.prototype itself *)

(** [v === true]. *)
Definition strict_eq_true (v : JSValue) : bool :=
  match v with
  | JSBool true => true
  | _ => false
  end.

(** The properties every ordinary object inherits from [Object.prototype]:
    eleven methods and the [__proto__] accessor, which read on an object
    literal gives [Object.prototype]. *)
Definition Object_prototype : gmap string JSValue :=
  list_to_map
    [ ("constructor", JSFunction "Object");
      ("__defineGetter__", JSFunction "__defineGetter__");
      ("__defineSetter__", JSFunction "__defineSetter__");
      ("hasOwnProperty", JSFunction "hasOwnProperty");
      ("__lookupGetter__", JSFunction "__lookupGetter__");
      ("__lookupSetter__", JSFunction "__lookupSetter__");
      ("isPrototypeOf", JSFunction "isPrototypeOf");
      ("propertyIsEnumerable", JSFunction "propertyIsEnumerable");
      ("toString", JSFunction "toString");
      ("valueOf", JSFunction "valueOf");
      ("toLocaleString", JSFunction "toLocaleString");
      ("__proto__", JSPrototype) ].

(** [obj[key]] on an object literal: own properties first, then the
    prototype, [undefined] when neither has the key. *)
Definition get_property (own : gmap string JSValue) (key : string) : JSValue :=
  match own !! key with
  | Some v => v
  | None => default JSUndefined (Object_prototype !! key)
  end.

Module Bridge.

(** ** The capability registry *)

(** The keys of the object literal [ALLOWED_CHANNELS], in source order. *)
Definition channel_names : list string :=
  [ "terminal:execute"; "terminal:resize"; "terminal:kill";
    "terminal:data"; "terminal:exit";
    "file:read"; "file:write"; "file:delete"; "file:list"; "file:stats";
    "system:info"; "system:cwd"; "system:env";
    "websocket:connect"; "websocket:disconnect"; "websocket:send";
    "websocket:message" ].

(** [const ALLOWED_CHANNELS = { 'terminal:execute': true, ... }]. *)
Definition ALLOWED_CHANNELS : gmap string JSValue :=
  list_to_map ((λ name, (name, JSBool true)) <$> channel_names).

(** ** The world the preload script runs in

    Functions are compared by identity in JavaScript, so every closure
    the script creates gets a fresh number; renderer callbacks are named
    by a number as well. *)

Definition Callback := nat.
Definition Args := list JSValue.

(** One entry of the listener arrays of [ipcRenderer] (an EventEmitter):
    [fn] is the function that was handed to [ipcRenderer.on] or
    [ipcRenderer.once], [once_wrapper] tells which of the two, and
    [callback] is the renderer function the closure calls. *)
Record Listener : Type := {
  fn : nat;
  once_wrapper : bool;
  callback : Callback }.

(** Calls made on the [ipcRenderer] primitives. *)
Inductive IpcCall : Type :=
  | ipc_send (channel : string) (args : Args)
  | ipc_invoke (channel : string) (args : Args)
  | ipc_sendSync (channel : string) (args : Args)
  | ipc_on (channel : string) (f : nat)
  | ipc_once (channel : string) (f : nat)
  | ipc_removeListener (channel : string) (f : nat).

Record World : Type := {
  registry : gmap string JSValue;          (* the object ALLOWED_CHANNELS *)
  _events : gmap string (list Listener);   (* ipcRenderer's listener arrays *)
  next_fn : nat;                           (* identity of the next closure *)
  ipc_calls : list IpcCall;                (* calls on ipcRenderer, oldest first *)
  console_error : list string;             (* console.error lines *)
  invocations : list (nat * Callback * Args) }. (* callback(...args) calls *)

Definition initial : World :=
  {| registry := ALLOWED_CHANNELS; _events := ∅; next_fn := 0;
     ipc_calls := []; console_error := []; invocations := [] |}.

Definition set_events (ev : gmap string (list Listener)) (w : World) : World :=
  {| registry := registry w; _events := ev; next_fn := next_fn w;
     ipc_calls := ipc_calls w; console_error := console_error w;
     invocations := invocations w |}.

Definition fresh_fn (w : World) : World :=
  {| registry := registry w; _events := _events w; next_fn := S (next_fn w);
     ipc_calls := ipc_calls w; console_error := console_error w;
     invocations := invocations w |}.

Definition log_ipc (c : IpcCall) (w : World) : World :=
  {| registry := registry w; _events := _events w; next_fn := next_fn w;
     ipc_calls := ipc_calls w ++ [c]; console_error := console_error w;
     invocations := invocations w |}.

Definition log_error (line : string) (w : World) : World :=
  {| registry := registry w; _events := _events w; next_fn := next_fn w;
     ipc_calls := ipc_calls w; console_error := console_error w ++ [line];
     invocations := invocations w |}.

Definition log_invocation (l : Listener) (args : Args) (w : World) : World :=
  {| registry := registry w; _events := _events w; next_fn := next_fn w;
     ipc_calls := ipc_calls w; console_error := console_error w;
     invocations := invocations w ++ [(fn l, callback l, args)] |}.

(** [function isChannelAllowed(channel) { return ALLOWED_CHANNELS[channel] === true; }] *)
Definition isChannelAllowed (w : World) (channel : string) : bool :=
  strict_eq_true (get_property (registry w) channel).

(** ** EventEmitter, as far as the bridge uses it *)

Definition listeners (w : World) (channel : string) : list Listener :=
  default [] (_events w !! channel).

(** [emitter.on] and [emitter.once] append to the channel's array. *)
Definition addListener (channel : string) (l : Listener) (w : World) : World :=
  set_events (<[channel := listeners w channel ++ [l]]> (_events w)) w.

(** [removeListener] removes at most one entry, the most recently added
    one whose function is [f]. *)
Fixpoint remove_last (f : nat) (ls : list Listener) : list Listener :=
  match ls with
  | [] => []
  | l :: rest =>
      if existsb (λ l', bool_decide (fn l' = f)) rest then l :: remove_last f rest
      else if bool_decide (fn l = f) then rest
      else l :: rest
  end.

(** The channel's key is dropped when its array becomes empty. *)
Definition removeListener (channel : string) (f : nat) (w : World) : World :=
  match _events w !! channel with
  | None => w
  | Some ls =>
      match remove_last f ls with
      | [] => set_events (delete channel (_events w)) w
      | ls' => set_events (<[channel := ls']> (_events w)) w
      end
  end.

(** One listener's turn during [emit]: a once-wrapper first removes
    itself, then the closure calls [callback(...args)]. *)
Definition fire (channel : string) (args : Args) (w : World) (l : Listener) : World :=
  log_invocation l args
    (if once_wrapper l then removeListener channel (fn l) w else w).

(** [emit] walks a copy of the channel's array taken when it starts. *)
Definition emit (channel : string) (args : Args) (w : World) : World :=
  foldl (fire channel args) w (listeners w channel).

(** ** secureAPI *)

Inductive Result : Type :=
  | Undefined
  | Throws (message : string)                 (* throw new Error(message) *)
  | Rejected (message : string)               (* promise rejected with Error(message) *)
  | Unsubscribe (channel : string) (f : nat)  (* the closure [on] returns *)
  | Reply (call : IpcCall).                   (* what the main process answers *)

Definition not_allowed (channel : string) : string :=
  "Channel '" +:+ channel +:+ "' is not allowed".

Definition send (channel : string) (args : Args) (w : World) : Result * World :=
  if negb (isChannelAllowed w channel) then
    (Throws (not_allowed channel),
     log_error ("[SECURITY] Blocked IPC send on non-whitelisted channel: " +:+ channel) w)
  else (Undefined, log_ipc (ipc_send channel args) w).

(** An [async] arrow: the [throw] rejects the promise it returns. *)
Definition invoke (channel : string) (args : Args) (w : World) : Result * World :=
  if negb (isChannelAllowed w channel) then
    (Rejected (not_allowed channel),
     log_error ("[SECURITY] Blocked IPC invoke on non-whitelisted channel: " +:+ channel) w)
  else (Reply (ipc_invoke channel args), log_ipc (ipc_invoke channel args) w).

Definition on (channel : string) (cb : Callback) (w : World) : Result * World :=
  if negb (isChannelAllowed w channel) then
    (Throws (not_allowed channel),
     log_error ("[SECURITY] Blocked IPC listener on non-whitelisted channel: " +:+ channel) w)
  else
    let wrappedCallback := next_fn w in
    (Unsubscribe channel wrappedCallback,
     addListener channel
       {| fn := wrappedCallback; once_wrapper := false; callback := cb |}
       (log_ipc (ipc_on channel wrappedCallback) (fresh_fn w))).

(** Calling the closure [() => { ipcRenderer.removeListener(channel, wrappedCallback); }]. *)
Definition unsubscribe (channel : string) (wrappedCallback : nat) (w : World)
  : Result * World :=
  (Undefined,
   removeListener channel wrappedCallback
     (log_ipc (ipc_removeListener channel wrappedCallback) w)).

(** The arrow has a block body without [return]: the result is [undefined]. *)
Definition once (channel : string) (cb : Callback) (w : World) : Result * World :=
  if negb (isChannelAllowed w channel) then
    (Throws (not_allowed channel),
     log_error ("[SECURITY] Blocked IPC once listener on non-whitelisted channel: " +:+ channel) w)
  else
    let f := next_fn w in
    (Undefined,
     addListener channel {| fn := f; once_wrapper := true; callback := cb |}
       (log_ipc (ipc_once channel f) (fresh_fn w))).

Definition getVersion (w : World) : Result * World :=
  (Reply (ipc_sendSync "app:get-version" []),
   log_ipc (ipc_sendSync "app:get-version" []) w).

Definition getCwd (w : World) : Result * World :=
  (Reply (ipc_invoke "system:cwd" []), log_ipc (ipc_invoke "system:cwd" []) w).

Definition getEnv (w : World) : Result * World :=
  (Reply (ipc_invoke "system:env" []), log_ipc (ipc_invoke "system:env" []) w).

(** ** Executions

    What can happen to the bridge: the renderer calls a member of
    [electronAPI] or a closure it got from [on], or the main process
    sends a message on a channel, which makes [ipcRenderer] emit.

    A callback is renderer code; what it calls on the bridge in turn
    shows up as later events: a call made while [emit] is still walking
    its copy of the array is written behind that delivery. As [emit]
    walks a copy and a once-wrapper leaves the array before its callback
    runs, this gives the same listener arrays and the same calls of
    callbacks; in particular a closure of [on] called from inside a
    delivery takes effect for the deliveries that start after it, and the
    one that is running still reaches every listener of its copy. *)
Inductive Event : Type :=
  | call_send (channel : string) (args : Args)
  | call_invoke (channel : string) (args : Args)
  | call_on (channel : string) (cb : Callback)
  | call_once (channel : string) (cb : Callback)
  | call_unsubscribe (channel : string) (f : nat)
  | call_getVersion
  | call_getCwd
  | call_getEnv
  | deliver (channel : string) (args : Args).

Definition step (w : World) (e : Event) : World :=
  match e with
  | call_send ch args => (send ch args w).2
  | call_invoke ch args => (invoke ch args w).2
  | call_on ch cb => (on ch cb w).2
  | call_once ch cb => (once ch cb w).2
  | call_unsubscribe ch f => (unsubscribe ch f w).2
  | call_getVersion => (getVersion w).2
  | call_getCwd => (getCwd w).2
  | call_getEnv => (getEnv w).2
  | deliver ch args => emit ch args w
  end.

Definition run (w : World) (es : list Event) : World := foldl step w es.

(** ** Bookkeeping for the proofs *)

(** Closures in the listener arrays are pairwise distinct per channel, and
    they and the closures that have run are older than the next closure. *)
Definition well_formed (w : World) : Prop :=
  (∀ channel, NoDup (fn <$> listeners w channel))
  ∧ (∀ channel l, l ∈ listeners w channel → fn l < next_fn w)
  ∧ (∀ i, i ∈ invocations w → i.1.1 < next_fn w).

(** The only place closure [f] is listed, if anywhere, is as listener [l]
    of [channel]. *)
Definition sole_listener (f : nat) (channel : string) (l : Listener) (w : World)
  : Prop :=
  ∀ ch l', l' ∈ listeners w ch → fn l' = f → ch = channel ∧ l' = l.

(** A call on [ipcRenderer] that names a channel of the registry; the
    only other calls are [sendSync] on the version channel of [getVersion]
    and the removal of a listener. *)
Definition covered (call : IpcCall) : Prop :=
  match call with
  | ipc_send ch _ | ipc_invoke ch _ | ipc_on ch _ | ipc_once ch _ =>
      isChannelAllowed initial ch = true
  | ipc_sendSync ch _ => ch = "app:get-version"
  | ipc_removeListener _ _ => True
  end.

(** How often the closure [f] has called its callback. *)
Definition times_invoked (f : nat) (w : World) : nat :=
  length (filter (λ i, i.1.1 = f) (invocations w)).

(** How often the closure [f] is listed on [channel]. *)
Definition times_listed (f : nat) (channel : string) (w : World) : nat :=
  length (filter (λ l, fn l = f) (listeners w channel)).

(** ** Reading an execution *)

(** The argument lists the main process sent on [channel], oldest first. *)
Fixpoint deliveries (channel : string) (es : list Event) : list Args :=
  match es with
  | [] => []
  | deliver ch args :: rest =>
      if bool_decide (ch = channel) then args :: deliveries channel rest
      else deliveries channel rest
  | _ :: rest => deliveries channel rest
  end.

(** No event of [es] calls the closure that removes listener [f] of
    [channel]. *)
Definition keeps (channel : string) (f : nat) (es : list Event) : bool :=
  forallb (λ e, match e with
                | call_unsubscribe ch g => negb (bool_decide (ch = channel ∧ g = f))
                | _ => true
                end) es.

(** The calls [callback(...args)] made through closure [f], oldest first. *)
Definition invocations_of (f : nat) (w : World) : list (nat * Callback * Args) :=
  filter (λ i, i.1.1 = f) (invocations w).

(** The [console.error] line of a call that names a channel outside
    [channel_names]; [None] for every other event. *)
Definition refusal (e : Event) : option string :=
  let blocked (what channel : string) :=
    if bool_decide (channel ∈ channel_names) then None
    else Some ("[SECURITY] Blocked IPC " +:+ what
               +:+ " on non-whitelisted channel: " +:+ channel) in
  match e with
  | call_send ch _ => blocked "send" ch
  | call_invoke ch _ => blocked "invoke" ch
  | call_on ch _ => blocked "listener" ch
  | call_once ch _ => blocked "once listener" ch
  | _ => None
  end.

(** The keys of the listener table are registered channels, and no array
    in it is empty. *)
Definition tidy (w : World) : Prop :=
  ∀ channel ls, _events w !! channel = Some ls →
    ls ≠ [] ∧ channel ∈ channel_names.

End Bridge.

Module Gateway.

(** ** Accept-time check ([verifyClient], Fix #1) *)

(** What [verifyClient] reads of its argument: [info.origin],
    [info.req.headers.origin] and [info.req.headers.host], each a string
    or [undefined]. *)
Record Info : Type := {
  info_origin : option string;
  headers_origin : option string;
  headers_host : option string }.

(** Truthiness of a string-or-undefined: [undefined] and the empty string
    are falsy. *)
Definition truthy (v : option string) : bool :=
  match v with
  | Some s => bool_decide (s ≠ "")
  | None => false
  end.

(** [s.startsWith(searchString)]. *)
Definition startsWith (s searchString : string) : bool :=
  String.prefix searchString s.

(** [`${this.port}`] for a port number. *)
Definition port_text (port : N) : string :=
  NilEmpty.string_of_uint (N.to_uint port).

Definition allowedOrigins (port : N) : list string :=
  [ "http://localhost";
    "http://127.0.0.1";
    "https://localhost";
    "https://127.0.0.1";
    "http://localhost:" +:+ port_text port;
    "http://127.0.0.1:" +:+ port_text port;
    "https://localhost:" +:+ port_text port;
    "https://127.0.0.1:" +:+ port_text port;
    "file://";
    "app://" ].

(** ** Connections and the authentication handshake *)

Inductive Timer : Type :=
  | Pending (due : N)   (* setTimeout was called, the callback has not run *)
  | Cleared             (* clearTimeout(authTimeout) *)
  | Fired.              (* the callback has run *)

Inductive CloseCause : Type :=
  | by_server (code : N) (reason : string)   (* the first ws.close(code, reason) *)
  | by_peer.                                 (* the other side went away *)

(** One run of the ['connection'] handler: its local [authenticated], its
    timer, whether [ws.once('message')] still waits, and the socket. *)
Record Conn : Type := {
  authenticated : bool;
  first_message_pending : bool;
  authTimeout : Timer;
  clearTimeout_calls : nat;
  close_calls : list (N * string);
  closed : option CloseCause }.

(** The server. [wss.clients] is the library's: in the ws releases the
    document asks for ("Update to latest version (8.x+)"), as in every
    release from 2.0 on, it is a [Set] of the sockets that were accepted
    and have not yet emitted ['close']. *)
Record Server : Type := {
  port : N;                    (* this.port *)
  wsAuthToken : string;        (* this.wsAuthToken *)
  now : N;                     (* milliseconds since start *)
  conns : list Conn;           (* every accepted connection, by number *)
  clients : gset nat;          (* this.wss.clients *)
  console_warn : list string }.

Definition start (p : N) (token : string) : Server :=
  {| port := p; wsAuthToken := token; now := 0; conns := []; clients := ∅;
     console_warn := [] |}.

(** [this.wss.clients.length], a number or [undefined] ([None]). A [Set]
    has a [size] and no [length]: the property read gives [undefined],
    whatever the set holds. *)
Definition clients_length (clients : gset nat) : option nat := None.

(** [v >= n] for [v] a number or [undefined]: [undefined] converts to
    NaN, and every comparison with NaN is false. *)
Definition js_ge (v : option nat) (n : nat) : bool :=
  match v with
  | Some m => bool_decide (n ≤ m)
  | None => false
  end.

(** The argument of [verifyClient], checked against the server. The
    result is paired with the lines given to [console.warn]. *)
Definition verifyClient (s : Server) (info : Info) : bool * list string :=
  if js_ge (clients_length (clients s)) 1 then (false, [])
  else
    let origin :=
      if truthy (info_origin info) then info_origin info
      else headers_origin info in
    if negb (truthy origin) then
      let host := headers_host info in
      if truthy host
         && (startsWith (default "" host) "localhost"
             || startsWith (default "" host) "127.0.0.1")
      then (true, [])
      else (false, [])
    else
      let isAllowed :=
        existsb (λ allowedOrigin, startsWith (default "" origin) allowedOrigin)
          (allowedOrigins (port s)) in
      (isAllowed,
       if isAllowed then []
       else ["[eDEX-UI Security] Rejected WebSocket connection from unauthorized origin: "
             +:+ default "" origin]).

(** [ws.close(code, reason)]: only the first close of a socket counts. *)
Definition ws_close (code : N) (reason : string) (c : Conn) : Conn :=
  {| authenticated := authenticated c;
     first_message_pending := first_message_pending c;
     authTimeout := authTimeout c;
     clearTimeout_calls := clearTimeout_calls c;
     close_calls := close_calls c ++ [(code, reason)];
     closed := match closed c with
               | None => Some (by_server code reason)
               | Some cause => Some cause
               end |}.

(** [authenticated = true; clearTimeout(authTimeout);] *)
Definition authenticate (c : Conn) : Conn :=
  {| authenticated := true;
     first_message_pending := first_message_pending c;
     authTimeout := match authTimeout c with
                    | Pending _ => Cleared
                    | t => t
                    end;
     clearTimeout_calls := S (clearTimeout_calls c);
     close_calls := close_calls c;
     closed := closed c |}.

(** What [JSON.parse(message)] makes of an inbound message. *)
Inductive Parse : Type :=
  | SyntaxError
  | Parsed (data : JSValue).

(** Own property of a parsed object; a later duplicate key overrides. *)
Fixpoint own_property (key : string) (props : list (string * JSValue))
  : option JSValue :=
  match props with
  | [] => None
  | (k, v) :: rest =>
      match own_property key rest with
      | Some v' => Some v'
      | None => if bool_decide (k = key) then Some v else None
      end
  end.

(** [data.authToken]; [None] is the TypeError of reading a property of
    [null]. No prototype has an [authToken]. *)
Definition get_authToken (data : JSValue) : option JSValue :=
  match data with
  | JSNull | JSUndefined => None
  | JSObject props => Some (default JSUndefined (own_property "authToken" props))
  | _ => Some JSUndefined
  end.

(** [v === s] for a string [s]. *)
Definition strict_eq_string (v : JSValue) (s : string) : bool :=
  match v with
  | JSString s' => bool_decide (s' = s)
  | _ => false
  end.

(** The body of the [ws.once('message', ...)] listener, [try]/[catch]
    included. *)
Definition on_message (token : string) (p : Parse) (c : Conn) : Conn :=
  match p with
  | SyntaxError => ws_close 4400 "Invalid message format" c
  | Parsed data =>
      match get_authToken data with
      | None => ws_close 4400 "Invalid message format" c
      | Some v =>
          if strict_eq_string v token then authenticate c
          else ws_close 4403 "Invalid auth token" c
      end
  end.

(** The body of the [setTimeout] callback. *)
Definition on_timeout (c : Conn) : Conn :=
  if negb (authenticated c) then ws_close 4401 "Authentication timeout" c
  else c.

Definition AUTH_TIMEOUT_MS : N := 5000.

(** The handler's state right after [this.wss.on('connection', ...)] ran. *)
Definition new_conn (t : N) : Conn :=
  {| authenticated := false; first_message_pending := true;
     authTimeout := Pending (t + AUTH_TIMEOUT_MS); clearTimeout_calls := 0;
     close_calls := []; closed := None |}.

Definition consume_first_message (c : Conn) : Conn :=
  {| authenticated := authenticated c; first_message_pending := false;
     authTimeout := authTimeout c; clearTimeout_calls := clearTimeout_calls c;
     close_calls := close_calls c; closed := closed c |}.

(** A ['message'] event of the socket reaches the once-listener if no
    earlier message used the listener up. Whether the handler has called
    [ws.close] plays no part: the handler never removes the listener. *)
Definition receive (token : string) (p : Parse) (c : Conn) : Conn :=
  if first_message_pending c
  then on_message token p (consume_first_message c)
  else c.

(** A timer whose delay has passed runs its callback, once. *)
Definition tick (t : N) (c : Conn) : Conn :=
  match authTimeout c with
  | Pending due =>
      if bool_decide (due ≤ t)%N then
        on_timeout
          {| authenticated := authenticated c;
             first_message_pending := first_message_pending c;
             authTimeout := Fired; clearTimeout_calls := clearTimeout_calls c;
             close_calls := close_calls c; closed := closed c |}
      else c
  | _ => c
  end.

(** The socket emits ['close']. If the server had not closed it, the
    peer did. *)
Definition hang_up (c : Conn) : Conn :=
  {| authenticated := authenticated c;
     first_message_pending := first_message_pending c;
     authTimeout := authTimeout c; clearTimeout_calls := clearTimeout_calls c;
     close_calls := close_calls c;
     closed := match closed c with
               | None => Some by_peer
               | Some cause => Some cause
               end |}.

(** ** Executions

    A socket on which [ws.close] was called is closing, not gone: until
    its ['close'] event (the peer answers the close frame, the connection
    is lost, or the library gives up waiting for the answer) it stays in
    [wss.clients] and still emits ['message'] for what the peer had sent.
    After its ['close'] event a socket emits nothing. When a socket emits
    ['close'] is up to the run, as is everything else the peer does. *)
Inductive Event : Type :=
  | attempt (info : Info)             (* an upgrade request arrives *)
  | message (id : nat) (p : Parse)    (* the peer of [id] has sent a message *)
  | elapse (ms : N)                   (* time passes *)
  | peer_close (id : nat).            (* socket [id] emits 'close': its peer
                                         disconnects, or ends the closing
                                         handshake *)

Definition accept (info : Info) (s : Server) : Server :=
  let (ok, warnings) := verifyClient s info in
  if ok then
    {| port := port s; wsAuthToken := wsAuthToken s; now := now s;
       conns := conns s ++ [new_conn (now s)];
       clients := {[length (conns s)]} ∪ clients s;
       console_warn := console_warn s ++ warnings |}
  else
    {| port := port s; wsAuthToken := wsAuthToken s; now := now s;
       conns := conns s; clients := clients s;
       console_warn := console_warn s ++ warnings |}.

Definition step (s : Server) (e : Event) : Server :=
  match e with
  | attempt info => accept info s
  | message id p =>
      if bool_decide (id ∈ clients s) then
        {| port := port s; wsAuthToken := wsAuthToken s; now := now s;
           conns := alter (receive (wsAuthToken s) p) id (conns s);
           clients := clients s; console_warn := console_warn s |}
      else s
  | elapse ms =>
      let t := (now s + ms)%N in
      {| port := port s; wsAuthToken := wsAuthToken s; now := t;
         conns := tick t <$> conns s; clients := clients s;
         console_warn := console_warn s |}
  | peer_close id =>
      {| port := port s; wsAuthToken := wsAuthToken s; now := now s;
         conns := alter hang_up id (conns s);
         clients := clients s ∖ {[id]};
         console_warn := console_warn s |}
  end.

Definition run (s : Server) (es : list Event) : Server := foldl step s es.

(** ** Connection states *)

Inductive ConnState : Type := AwaitingAuth | Authenticated | Active | Closed.

(** Between events a connection is never seen in [Authenticated]: the
    handler goes on to normal operation in the same turn. A connection on
    which the server called [ws.close] counts as [Closed]. *)
Definition conn_state (c : Conn) : ConnState :=
  match closed c with
  | Some _ => Closed
  | None => if authenticated c then Active else AwaitingAuth
  end.

Definition state_of (s : Server) (id : nat) : option ConnState :=
  conn_state <$> conns s !! id.

(** Why connection [id] is closed, if it is. *)
Definition close_cause (s : Server) (id : nat) : option CloseCause :=
  conns s !! id ≫= closed.

(** ** The accept policy in the specification's words

    Used only to compare [verifyClient] with. An origin is acceptable if
    it is one of the eight loopback HTTP/HTTPS origins, or begins with a
    trusted local scheme; a host is a loopback name if, without its port,
    it is [localhost] or [127.0.0.1]. *)
Definition spec_origin_allowed (port : N) (origin : string) : bool :=
  bool_decide (origin ∈ take 8 (allowedOrigins port))
  || startsWith origin "file://" || startsWith origin "app://".

Fixpoint host_name (host : string) : string :=
  match host with
  | EmptyString => EmptyString
  | String a rest =>
      if bool_decide (a = ":"%char) then EmptyString
      else String a (host_name rest)
  end.

Definition spec_loopback_host (host : string) : bool :=
  bool_decide (host_name host ∈ ["localhost"; "127.0.0.1"]).

(** ** Bookkeeping for the proofs *)

(** No event of [es] is a message to, or a ['close'] of, connection [id]. *)
Definition quiet (id : nat) (es : list Event) : bool :=
  forallb (λ e, match e with
                | message id' _ | peer_close id' => bool_decide (id' ≠ id)
                | _ => true
                end) es.

(** The connection accepted at time [t], once its timer has run. *)
Definition timed_out (t : N) : Conn := tick (t + AUTH_TIMEOUT_MS) (new_conn t).

(** Connection [id], accepted at time [t], has had no message and no
    ['close']: it waits until the deadline and is timed out from then on,
    still in [wss.clients]. *)
Definition waiting (id : nat) (t : N) (s : Server) : Prop :=
  id ∈ clients s
  ∧ (((now s < t + AUTH_TIMEOUT_MS)%N ∧ conns s !! id = Some (new_conn t))
     ∨ ((t + AUTH_TIMEOUT_MS ≤ now s)%N ∧ conns s !! id = Some (timed_out t))).

(** What holds of every connection between events. *)
Definition conn_ok (c : Conn) : Prop :=
  clearTimeout_calls c = (if authenticated c then 1 else 0)
  ∧ (authenticated c = true →
       first_message_pending c = false
       ∧ ((authTimeout c = Cleared ∧ close_calls c = []
           ∧ (closed c = None ∨ closed c = Some by_peer))
          ∨ (authTimeout c = Fired
             ∧ closed c = Some (by_server 4401 "Authentication timeout"))))
  ∧ (authenticated c = false →
       authTimeout c ≠ Cleared
       ∧ (closed c = None →
            first_message_pending c = true ∧ close_calls c = []
            ∧ ∃ due, authTimeout c = Pending due))
  ∧ (first_message_pending c = true →
       ∀ code reason, closed c = Some (by_server code reason) →
         authTimeout c = Fired
         ∧ code = 4401%N ∧ reason = "Authentication timeout").

(** [wss.clients] holds every open socket and none whose peer has gone,
    and every connection is as [conn_ok] says. *)
Definition consistent (s : Server) : Prop :=
  (∀ id, id ∈ clients s →
         ∃ c, conns s !! id = Some c ∧ closed c ≠ Some by_peer)
  ∧ (∀ id c, conns s !! id = Some c → closed c = None → id ∈ clients s)
  ∧ Forall conn_ok (conns s).

(** The entries of [allowedOrigins] that do not mention the port. *)
Definition portless_origins : list string :=
  [ "http://localhost"; "http://127.0.0.1"; "https://localhost";
    "https://127.0.0.1"; "file://"; "app://" ].

(** The three ways the server closes a socket. *)
Definition close_codes : list (N * string) :=
  [ (4401%N, "Authentication timeout");
    (4403%N, "Invalid auth token");
    (4400%N, "Invalid message format") ].

(** Every [ws.close] of the handler uses one of its three code and reason
    pairs. *)
Definition codes_ok (c : Conn) : Prop :=
  Forall (λ call, call ∈ close_codes) (close_calls c)
  ∧ ∀ code reason, closed c = Some (by_server code reason) →
                   (code, reason) ∈ close_codes.


(** Connection [id] can no longer bring a first message to the
    once-listener: the listener was used up, or the socket has emitted
    ['close']. *)
Definition settled (s : Server) (id : nat) (c : Conn) : Prop :=
  first_message_pending c = false ∨ id ∉ clients s.

(** A pending timer is due in the future, and no later than
    [AUTH_TIMEOUT_MS] from now. *)
Definition timely (s : Server) : Prop :=
  Forall (λ c, ∀ due, authTimeout c = Pending due →
                 (now s < due ∧ due ≤ now s + AUTH_TIMEOUT_MS)%N)
         (conns s).

End Gateway.

Module BridgeTheory.
Import Bridge.

(** *** The registry *)

Lemma channel_names_NoDup : NoDup channel_names.
Proof. apply (bool_decide_unpack _). vm_compute. exact I. Qed.

Lemma keys_of_literal (names : list string) :
  ((λ name, (name, JSBool true)) <$> names).*1 = names.
Proof. induction names as [|n ns IH]; [done | by rewrite !fmap_cons, IH]. Qed.

Lemma ALLOWED_CHANNELS_lookup (channel : string) :
  ALLOWED_CHANNELS !! channel
  = if bool_decide (channel ∈ channel_names) then Some (JSBool true) else None.
Proof.
  unfold ALLOWED_CHANNELS. case_bool_decide as Hin.
  - apply elem_of_list_to_map_1.
    + rewrite keys_of_literal. apply channel_names_NoDup.
    + apply list_elem_of_fmap. by exists channel.
  - apply not_elem_of_list_to_map_1.
    by rewrite keys_of_literal.
Qed.

Lemma Object_prototype_not_true (key : string) (v : JSValue) :
  Object_prototype !! key = Some v → strict_eq_true v = false.
Proof.
  intros Hv. apply elem_of_list_to_map_2 in Hv.
  repeat (apply elem_of_cons in Hv as [Hv | Hv]; [by inversion Hv |]).
  by apply elem_of_nil in Hv.
Qed.

Lemma inherited_not_true (key : string) :
  strict_eq_true (default JSUndefined (Object_prototype !! key)) = false.
Proof.
  destruct (Object_prototype !! key) as [v|] eqn:Hv; [|done].
  simpl. by eapply Object_prototype_not_true.
Qed.

Lemma isChannelAllowed_registry (w : World) (channel : string) :
  registry w = ALLOWED_CHANNELS →
  isChannelAllowed w channel = bool_decide (channel ∈ channel_names).
Proof.
  intros Hreg. unfold isChannelAllowed, get_property.
  rewrite Hreg, ALLOWED_CHANNELS_lookup.
  case_bool_decide; [done | apply inherited_not_true].
Qed.

(** *** What the operations leave alone *)

Lemma removeListener_frame (channel : string) (f : nat) (w : World) :
  registry (removeListener channel f w) = registry w
  ∧ next_fn (removeListener channel f w) = next_fn w
  ∧ ipc_calls (removeListener channel f w) = ipc_calls w
  ∧ invocations (removeListener channel f w) = invocations w.
Proof.
  unfold removeListener. destruct (_events w !! channel) as [ls|]; [|done].
  by destruct (remove_last f ls).
Qed.

Lemma fire_frame (channel : string) (args : Args) (w : World) (l : Listener) :
  registry (fire channel args w l) = registry w
  ∧ next_fn (fire channel args w l) = next_fn w
  ∧ ipc_calls (fire channel args w l) = ipc_calls w.
Proof.
  unfold fire. destruct (once_wrapper l); simpl; [|done].
  by destruct (removeListener_frame channel (fn l) w) as (-> & -> & -> & _).
Qed.

Lemma emit_frame (channel : string) (args : Args) (w : World) :
  registry (emit channel args w) = registry w
  ∧ next_fn (emit channel args w) = next_fn w
  ∧ ipc_calls (emit channel args w) = ipc_calls w.
Proof.
  unfold emit. generalize (listeners w channel) as ls. intros ls.
  revert w. induction ls as [|l ls IH]; intros w; [done|].
  simpl. destruct (IH (fire channel args w l)) as (-> & -> & ->).
  apply fire_frame.
Qed.

Lemma step_registry (w : World) (e : Event) : registry (step w e) = registry w.
Proof.
  destruct e as [ch args|ch args|ch cb|ch cb|ch f| | | |ch args]; simpl;
    unfold send, invoke, on, once, unsubscribe; try done.
  1-4: by destruct (negb (isChannelAllowed w ch)).
  - by destruct (removeListener_frame ch f (log_ipc (ipc_removeListener ch f) w))
      as (-> & _).
  - apply emit_frame.
Qed.

Lemma run_registry (w : World) (es : list Event) : registry (run w es) = registry w.
Proof.
  revert w. induction es as [|e es IH]; intros w; [done|].
  simpl. unfold run in IH. by rewrite IH, step_registry.
Qed.

(** *** What reaches ipcRenderer *)

Lemma isChannelAllowed_initial (w : World) (channel : string) :
  registry w = ALLOWED_CHANNELS →
  isChannelAllowed w channel = isChannelAllowed initial channel.
Proof. intros Hreg. unfold isChannelAllowed. by rewrite Hreg. Qed.

Lemma step_covered (w : World) (e : Event) :
  registry w = ALLOWED_CHANNELS →
  Forall covered (ipc_calls w) → Forall covered (ipc_calls (step w e)).
Proof.
  intros Hreg Hcalls.
  destruct e as [ch args|ch args|ch cb|ch cb|ch f| | | |ch args]; simpl;
    unfold send, invoke, on, once, unsubscribe, getVersion, getCwd, getEnv.
  1-4: destruct (isChannelAllowed w ch) eqn:Hallowed; simpl; [|done];
       apply Forall_app; (split; [done|]); constructor; [|done];
       simpl; by rewrite <- (isChannelAllowed_initial w).
  - destruct (removeListener_frame ch f (log_ipc (ipc_removeListener ch f) w))
      as (_ & _ & -> & _).
    simpl. apply Forall_app. split; [done|]. by constructor.
  - simpl. apply Forall_app. split; [done|]. by constructor.
  - simpl. apply Forall_app. split; [done|]. constructor; [by vm_compute|done].
  - simpl. apply Forall_app. split; [done|]. constructor; [by vm_compute|done].
  - by destruct (emit_frame ch args w) as (_ & _ & ->).
Qed.

Lemma run_covered (w : World) (es : list Event) :
  registry w = ALLOWED_CHANNELS →
  Forall covered (ipc_calls w) → Forall covered (ipc_calls (run w es)).
Proof.
  revert w. induction es as [|e es IH]; intros w Hreg Hcalls; [done|].
  simpl. apply IH; [by rewrite step_registry | by apply step_covered].
Qed.

(** *** Listener arrays *)

Lemma existsb_fn_true (f : nat) (ls : list Listener) :
  existsb (λ l, bool_decide (fn l = f)) ls = true ↔ f ∈ fn <$> ls.
Proof.
  rewrite existsb_exists, list_elem_of_fmap. split.
  - intros (l & Hin & Hf). apply bool_decide_eq_true in Hf.
    exists l. split; [done | by apply list_elem_of_In].
  - intros (l & -> & Hin). exists l.
    split; [by apply list_elem_of_In | by apply bool_decide_eq_true].
Qed.

Lemma filter_other_fn (f : nat) (ls : list Listener) :
  f ∉ fn <$> ls → filter (λ l, fn l ≠ f) ls = ls.
Proof.
  induction ls as [|l ls IH]; [done|].
  rewrite fmap_cons, not_elem_of_cons. intros [Hne Hnin].
  rewrite filter_cons_True by done. by rewrite IH.
Qed.

Lemma remove_last_filter (f : nat) (ls : list Listener) :
  NoDup (fn <$> ls) → remove_last f ls = filter (λ l, fn l ≠ f) ls.
Proof.
  induction ls as [|l ls IH]; [done|].
  rewrite fmap_cons, NoDup_cons. intros [Hl Hnd]. simpl.
  destruct (existsb _ ls) eqn:Hex.
  - apply existsb_fn_true in Hex.
    rewrite filter_cons_True by (intros Heq; by rewrite Heq in Hl).
    by rewrite IH.
  - assert (f ∉ fn <$> ls) as Hnin
      by (rewrite <- existsb_fn_true; by rewrite Hex).
    case_bool_decide as Hf.
    + rewrite filter_cons_False by (intros Hne; by apply Hne).
      by rewrite filter_other_fn.
    + rewrite filter_cons_True by done. by rewrite filter_other_fn.
Qed.

Lemma remove_last_sublist (f : nat) (ls : list Listener) :
  remove_last f ls `sublist_of` ls.
Proof.
  induction ls as [|l ls IH]; [done|]. simpl.
  destruct (existsb _ ls); [by apply sublist_skip|].
  case_bool_decide; [by apply sublist_cons | done].
Qed.

Lemma listeners_addListener (channel channel' : string) (l : Listener) (w : World) :
  listeners (addListener channel l w) channel'
  = if decide (channel = channel') then listeners w channel ++ [l]
    else listeners w channel'.
Proof.
  unfold addListener, listeners at 1. simpl. rewrite lookup_insert.
  by case_decide.
Qed.

Lemma listeners_removeListener (channel channel' : string) (f : nat) (w : World) :
  listeners (removeListener channel f w) channel'
  = if decide (channel = channel') then remove_last f (listeners w channel)
    else listeners w channel'.
Proof.
  unfold removeListener, listeners.
  destruct (_events w !! channel) as [ls|] eqn:Hls.
  - destruct (remove_last f ls) as [|l' ls'] eqn:Hrm; simpl.
    + rewrite lookup_delete. by case_decide.
    + rewrite lookup_insert. by case_decide.
  - case_decide as Heq; [|done]. subst channel'. by rewrite Hls.
Qed.

Lemma listeners_fire (channel channel' : string) (args : Args) (w : World)
    (l : Listener) :
  listeners (fire channel args w l) channel'
  = if once_wrapper l && bool_decide (channel = channel')
    then remove_last (fn l) (listeners w channel)
    else listeners w channel'.
Proof.
  unfold fire. change (listeners (log_invocation l args ?v) channel')
    with (listeners v channel').
  destruct (once_wrapper l); simpl; [|done].
  rewrite listeners_removeListener. case_decide; by case_bool_decide.
Qed.

Lemma foldl_fire_sublist (channel channel' : string) (args : Args)
    (ls : list Listener) (w : World) :
  listeners (foldl (fire channel args) w ls) channel'
    `sublist_of` listeners w channel'.
Proof.
  revert w. induction ls as [|l ls IH]; intros w; [done|]. simpl.
  etrans; [apply IH|]. rewrite listeners_fire.
  destruct (once_wrapper l && bool_decide (channel = channel')) eqn:Hc; [|done].
  apply andb_true_iff in Hc as [_ Heq]. apply bool_decide_eq_true in Heq.
  subst channel'. apply remove_last_sublist.
Qed.

(** A step either thins a channel's array, or appends the closure it has
    just created. *)
Lemma step_listeners (w : World) (e : Event) (channel : string) :
  listeners (step w e) channel `sublist_of` listeners w channel
  ∨ ∃ l, listeners (step w e) channel = listeners w channel ++ [l]
         ∧ fn l = next_fn w ∧ next_fn (step w e) = S (next_fn w).
Proof.
  destruct e as [ch args|ch args|ch cb|ch cb|ch f| | | |ch args]; simpl;
    unfold send, invoke, on, once, unsubscribe, getVersion, getCwd, getEnv.
  - left. by destruct (negb (isChannelAllowed w ch)).
  - left. by destruct (negb (isChannelAllowed w ch)).
  - destruct (negb (isChannelAllowed w ch)); [by left|]. simpl.
    rewrite listeners_addListener. case_decide; [|by left].
    subst ch. right. by eexists.
  - destruct (negb (isChannelAllowed w ch)); [by left|]. simpl.
    rewrite listeners_addListener. case_decide; [|by left].
    subst ch. right. by eexists.
  - left. simpl. rewrite listeners_removeListener.
    case_decide; [|done]. subst ch. apply remove_last_sublist.
  - by left.
  - by left.
  - by left.
  - left. apply foldl_fire_sublist.
Qed.

Lemma step_next_fn (w : World) (e : Event) : next_fn w ≤ next_fn (step w e).
Proof.
  destruct e as [ch args|ch args|ch cb|ch cb|ch f| | | |ch args]; simpl;
    unfold send, invoke, on, once, unsubscribe; try done.
  1-4: destruct (negb (isChannelAllowed w ch)); simpl; lia.
  - by destruct (removeListener_frame ch f (log_ipc (ipc_removeListener ch f) w))
      as (_ & -> & _).
  - by destruct (emit_frame ch args w) as (_ & -> & _).
Qed.

Lemma run_next_fn (w : World) (es : list Event) : next_fn w ≤ next_fn (run w es).
Proof.
  revert w. induction es as [|e es IH]; intros w; [done|]. simpl.
  etrans; [apply (step_next_fn w e) | apply IH].
Qed.

Lemma foldl_fire_invocations (channel : string) (args : Args)
    (q : list Listener) (w : World) :
  invocations (foldl (fire channel args) w q)
  = invocations w ++ ((λ l, (fn l, callback l, args)) <$> q).
Proof.
  revert w. induction q as [|l q IH]; intros w; simpl.
  - by rewrite app_nil_r.
  - rewrite IH. unfold fire. simpl. rewrite <- app_assoc. f_equal.
    destruct (once_wrapper l); [|done].
    by destruct (removeListener_frame channel (fn l) w) as (_ & _ & _ & ->).
Qed.

Lemma invocations_emit (channel : string) (args : Args) (w : World) :
  invocations (emit channel args w)
  = invocations w ++ ((λ l, (fn l, callback l, args)) <$> listeners w channel).
Proof. apply foldl_fire_invocations. Qed.

Lemma step_invocations (w : World) (e : Event) :
  (∃ ch args, e = deliver ch args) ∨ invocations (step w e) = invocations w.
Proof.
  destruct e as [ch args|ch args|ch cb|ch cb|ch g| | | |ch args]; simpl;
    unfold send, invoke, on, once, unsubscribe; [right..|left; by eauto];
    try done.
  1-4: by destruct (negb (isChannelAllowed w ch)).
  by destruct (removeListener_frame ch g (log_ipc (ipc_removeListener ch g) w))
    as (_ & _ & _ & ->).
Qed.

Lemma initial_well_formed : well_formed initial.
Proof.
  split; [|split]; [intros channel..|intros i Hi; by apply elem_of_nil in Hi];
    unfold listeners; simpl; rewrite lookup_empty; simpl.
  - constructor.
  - intros l Hl. by apply elem_of_nil in Hl.
Qed.

Lemma step_well_formed (w : World) (e : Event) :
  well_formed w → well_formed (step w e).
Proof.
  intros (Hnd & Hlt & Hinv). split; [|split]; [intros channel..|].
  - destruct (step_listeners w e channel) as [Hsub | (l & -> & Hl & _)].
    + eapply sublist_NoDup; [apply (Hnd channel) | by apply fmap_sublist].
    + rewrite fmap_app. apply NoDup_app. split; [apply Hnd|]. split.
      * intros f (l' & -> & Hin)%list_elem_of_fmap Hf.
        apply list_elem_of_singleton in Hf. apply Hlt in Hin. simpl in Hf. lia.
      * apply NoDup_singleton.
  - intros l' Hin. pose proof (step_next_fn w e) as Hmono.
    destruct (step_listeners w e channel) as [Hsub | (l & Heq & Hl & Hnext)].
    + eapply elem_of_sublist in Hin; [|done]. apply Hlt in Hin. lia.
    + rewrite Heq in Hin. apply elem_of_app in Hin as [Hin | Hin].
      * apply Hlt in Hin. lia.
      * apply list_elem_of_singleton in Hin. subst l'. lia.
  - intros i Hi. pose proof (step_next_fn w e) as Hmono.
    destruct (step_invocations w e) as [(ch & args & ->) | Hsame].
    + simpl in Hi, Hmono |- *. rewrite invocations_emit in Hi.
      apply elem_of_app in Hi as [Hi | (l & -> & Hl)%list_elem_of_fmap].
      * apply Hinv in Hi. lia.
      * apply Hlt in Hl. simpl. lia.
    + rewrite Hsame in Hi. apply Hinv in Hi. lia.
Qed.

Lemma run_well_formed (w : World) (es : list Event) :
  well_formed w → well_formed (run w es).
Proof.
  revert w. induction es as [|e es IH]; intros w Hw; [done|].
  simpl. by apply IH, step_well_formed.
Qed.

Lemma step_sole_listener (f : nat) (channel : string) (l : Listener)
    (w : World) (e : Event) :
  f < next_fn w → sole_listener f channel l w →
  sole_listener f channel l (step w e).
Proof.
  intros Hf Hsole ch l' Hin Hfn.
  destruct (step_listeners w e ch) as [Hsub | (new & Heq & Hnew & _)].
  - eapply Hsole; [|done]. by eapply elem_of_sublist.
  - rewrite Heq in Hin. apply elem_of_app in Hin as [Hin | Hin].
    + by eapply Hsole.
    + apply list_elem_of_singleton in Hin. subst l'. lia.
Qed.

Lemma run_sole_listener (f : nat) (channel : string) (l : Listener)
    (w : World) (es : list Event) :
  f < next_fn w → sole_listener f channel l w →
  sole_listener f channel l (run w es).
Proof.
  revert w. induction es as [|e es IH]; intros w Hf Hsole; [done|].
  simpl. apply IH; [|by apply step_sole_listener].
  pose proof (step_next_fn w e). lia.
Qed.

Lemma reachable_well_formed (es : list Event) : well_formed (run initial es).
Proof. apply run_well_formed, initial_well_formed. Qed.

(** A closure that [on] or [once] has just appended is listed nowhere else. *)
Lemma appended_sole_listener (channel : string) (l : Listener) (w w1 : World) :
  well_formed w → fn l = next_fn w →
  (∀ ch, listeners w1 ch
         = if decide (channel = ch) then listeners w channel ++ [l]
           else listeners w ch) →
  sole_listener (next_fn w) channel l w1.
Proof.
  intros (_ & Hlt & _) Hl Hw1 ch l' Hin Hfn. rewrite Hw1 in Hin.
  case_decide as Hch.
  - subst ch. apply elem_of_app in Hin as [Hin | Hin].
    + apply Hlt in Hin. lia.
    + by apply list_elem_of_singleton in Hin.
  - apply Hlt in Hin. lia.
Qed.

(** *** Delivery *)

Lemma filter_middle (k q : list Listener) (l : Listener) :
  NoDup (fn <$> (k ++ l :: q)) →
  filter (λ x, fn x ≠ fn l) (k ++ l :: q) = k ++ q.
Proof.
  rewrite fmap_app, fmap_cons. intros (_ & Hk & Hq)%NoDup_app.
  apply NoDup_cons in Hq as [Hq _].
  rewrite filter_app, filter_cons_False by (intros Hne; by apply Hne).
  rewrite !filter_other_fn; [done | done |].
  intros Hin. apply (Hk _ Hin). by left.
Qed.

Lemma foldl_fire_listeners (channel : string) (args : Args)
    (q kept : list Listener) (w : World) :
  NoDup (fn <$> (kept ++ q)) → listeners w channel = kept ++ q →
  listeners (foldl (fire channel args) w q) channel
  = kept ++ filter (λ l, once_wrapper l = false) q.
Proof.
  revert kept w. induction q as [|l q IH]; intros kept w Hnd Hw; [done|].
  simpl. destruct (once_wrapper l) eqn:Honce.
  - rewrite filter_cons_False by (by rewrite Honce).
    apply IH.
    + eapply sublist_NoDup; [exact Hnd|].
      apply fmap_sublist, sublist_app; [done | by apply sublist_cons].
    + rewrite listeners_fire, Honce, bool_decide_eq_true_2 by done. simpl.
      rewrite Hw, remove_last_filter by done. by apply filter_middle.
  - rewrite filter_cons_True by done.
    rewrite (IH (kept ++ [l])).
    + by rewrite <- app_assoc.
    + by rewrite <- app_assoc.
    + rewrite listeners_fire, Honce. simpl. by rewrite Hw, <- app_assoc.
Qed.

Lemma foldl_fire_other (channel channel' : string) (args : Args)
    (q : list Listener) (w : World) :
  channel ≠ channel' →
  listeners (foldl (fire channel args) w q) channel' = listeners w channel'.
Proof.
  intros Hne. revert w. induction q as [|l q IH]; intros w; [done|].
  simpl. rewrite IH, listeners_fire.
  by rewrite bool_decide_eq_false_2, andb_false_r.
Qed.

(** [emit] calls every listener the channel had when it started, in
    order, and afterwards the once-wrappers among them are gone. *)
Lemma listeners_emit (channel channel' : string) (args : Args) (w : World) :
  well_formed w →
  listeners (emit channel args w) channel'
  = if decide (channel = channel')
    then filter (λ l, once_wrapper l = false) (listeners w channel)
    else listeners w channel'.
Proof.
  intros (Hnd & _). unfold emit. case_decide as Hch.
  - subst channel'.
    apply (foldl_fire_listeners channel args (listeners w channel) [] w);
      [apply Hnd | reflexivity].
  - by apply foldl_fire_other.
Qed.

Lemma times_invoked_emit (f : nat) (channel : string) (args : Args) (w : World) :
  times_invoked f (emit channel args w)
  = times_invoked f w + times_listed f channel w.
Proof.
  unfold times_invoked, times_listed. rewrite invocations_emit.
  rewrite filter_app, length_app. f_equal.
  induction (listeners w channel) as [|l ls IH]; [done|].
  rewrite fmap_cons, !filter_cons. simpl.
  destruct (decide (fn l = f)); simpl; by rewrite IH.
Qed.

Lemma sole_not_listed_elsewhere (f : nat) (channel ch : string) (l : Listener)
    (w : World) :
  sole_listener f channel l w → ch ≠ channel → times_listed f ch w = 0.
Proof.
  intros Hsole Hne. unfold times_listed.
  destruct (filter _ _) as [|l' ls] eqn:Hfilter; [done|].
  assert (l' ∈ filter (λ l0, fn l0 = f) (listeners w ch)) as Hin
    by (rewrite Hfilter; by left).
  apply list_elem_of_filter in Hin as [Hfn Hin].
  by destruct (Hsole ch l' Hin Hfn).
Qed.

Lemma sublist_times (f : nat) (l1 l2 : list Listener) :
  l1 `sublist_of` l2 →
  length (filter (λ l, fn l = f) l1) ≤ length (filter (λ l, fn l = f) l2).
Proof.
  induction 1 as [|x l1 l2 _ IH|x l1 l2 _ IH]; [done| |];
    rewrite ?filter_cons; destruct (decide (fn x = f)); simpl; lia.
Qed.

(** A once-wrapper is called at most once: what a closure [f] listed only
    as a once-wrapper has been called, plus what it is still listed, never
    grows. *)
Lemma step_once_budget (f : nat) (channel : string) (l : Listener)
    (w : World) (e : Event) :
  well_formed w → f < next_fn w → once_wrapper l = true →
  sole_listener f channel l w →
  times_invoked f (step w e) + times_listed f channel (step w e)
  ≤ times_invoked f w + times_listed f channel w.
Proof.
  intros Hwf Hf Honce Hsole.
  destruct (step_invocations w e) as [(ch & args & ->) | Hinv].
  - simpl. rewrite times_invoked_emit. unfold times_listed at 2.
    rewrite listeners_emit by done. case_decide as Hch.
    + subst ch. fold (times_listed f channel w).
      destruct (filter _ (filter _ _)) as [|l' ls] eqn:Hfilter; [simpl; lia|].
      assert (l' ∈ filter (λ l0, fn l0 = f)
                     (filter (λ l0, once_wrapper l0 = false) (listeners w channel)))
        as Hin by (rewrite Hfilter; by left).
      apply list_elem_of_filter in Hin as [Hfn Hin].
      apply list_elem_of_filter in Hin as [Hnot Hin].
      destruct (Hsole channel l' Hin Hfn) as [_ ->]. congruence.
    + rewrite (sole_not_listed_elsewhere f channel ch l w) by done.
      fold (times_listed f channel w). lia.
  - assert (times_invoked f (step w e) = times_invoked f w) as ->
      by (unfold times_invoked; by rewrite Hinv).
    apply Nat.add_le_mono_l. unfold times_listed.
    destruct (step_listeners w e channel) as [Hsub | (new & Heq & Hnew & _)].
    + by apply sublist_times.
    + rewrite Heq, filter_app, length_app.
      rewrite filter_cons_False by lia. simpl. lia.
Qed.

Lemma run_once_budget (f : nat) (channel : string) (l : Listener)
    (w : World) (es : list Event) :
  well_formed w → f < next_fn w → once_wrapper l = true →
  sole_listener f channel l w →
  times_invoked f (run w es) + times_listed f channel (run w es)
  ≤ times_invoked f w + times_listed f channel w.
Proof.
  revert w. induction es as [|e es IH]; intros w Hwf Hf Honce Hsole; [done|].
  simpl. etrans; [apply IH|by eapply step_once_budget]; try done.
  - by apply step_well_formed.
  - pose proof (step_next_fn w e). lia.
  - by apply step_sole_listener.
Qed.

(** *** The claims about the bridge *)

(** C10: [isChannelAllowed] answers [true] exactly for the seventeen names
    enumerated in [ALLOWED_CHANNELS] and [false] for every other string;
    the names inherited from [Object.prototype], among them ["toString"],
    ["constructor"] and ["hasOwnProperty"], are rejected because their
    values are not the boolean [true]. *)
Theorem isChannelAllowed_exactly_the_enumerated_names :
  length channel_names = 17
  ∧ NoDup channel_names
  ∧ (∀ channel,
       isChannelAllowed initial channel = bool_decide (channel ∈ channel_names))
  ∧ (∀ key, is_Some (Object_prototype !! key) →
            isChannelAllowed initial key = false)
  ∧ isChannelAllowed initial "toString" = false
  ∧ isChannelAllowed initial "constructor" = false
  ∧ isChannelAllowed initial "hasOwnProperty" = false
  ∧ isChannelAllowed initial "__proto__" = false.
Proof.
  assert (∀ key, is_Some (Object_prototype !! key) →
                 isChannelAllowed initial key = false) as Hinherited.
  { intros key [v Hv]. rewrite isChannelAllowed_registry by done.
    apply bool_decide_eq_false. intros Hin.
    apply elem_of_list_to_map_2 in Hv.
    repeat (apply elem_of_cons in Hv as [Hv | Hv];
            [by (inversion Hv; subst key; vm_compute in Hin;
                 repeat (apply elem_of_cons in Hin as [Hin | Hin]; [done|]);
                 apply elem_of_nil in Hin) |]).
    by apply elem_of_nil in Hv. }
  split; [done|]. split; [apply channel_names_NoDup|].
  split; [intros channel; by apply isChannelAllowed_registry|].
  split; [done|].
  repeat split; apply Hinherited; by eexists.
Qed.

(** C1: on a channel that [isChannelAllowed] rejects, [send], [on] and
    [once] throw and [invoke] rejects its promise, each with the error
    naming the channel; none of them calls an [ipcRenderer] primitive or
    touches the listener arrays, so nothing is transmitted. In every
    execution, each call that [send], [invoke], [on] or [once] has made on
    [ipcRenderer] names a channel of the registry. *)
Theorem unregistered_channel_fails_before_ipcRenderer
    (w : World) (channel : string) (args : Args) (cb : Callback)
    (es : list Event) :
  isChannelAllowed w channel = false →
  ((send channel args w).1 = Throws (not_allowed channel)
   ∧ ipc_calls (send channel args w).2 = ipc_calls w
   ∧ _events (send channel args w).2 = _events w)
  ∧ ((invoke channel args w).1 = Rejected (not_allowed channel)
     ∧ ipc_calls (invoke channel args w).2 = ipc_calls w
     ∧ _events (invoke channel args w).2 = _events w)
  ∧ ((on channel cb w).1 = Throws (not_allowed channel)
     ∧ ipc_calls (on channel cb w).2 = ipc_calls w
     ∧ _events (on channel cb w).2 = _events w)
  ∧ ((once channel cb w).1 = Throws (not_allowed channel)
     ∧ ipc_calls (once channel cb w).2 = ipc_calls w
     ∧ _events (once channel cb w).2 = _events w)
  ∧ Forall covered (ipc_calls (run initial es)).
Proof.
  intros Hdenied. unfold send, invoke, on, once. rewrite Hdenied. simpl.
  repeat (split; [done|]). by apply run_covered.
Qed.

Lemma unregistered_channel_witness :
  isChannelAllowed initial "shell:exec" = false
  ∧ (send "shell:exec" [JSString "rm"] initial).1 = Throws (not_allowed "shell:exec")
  ∧ ipc_calls (send "shell:exec" [JSString "rm"] initial).2 = [].
Proof.
  split; [by vm_compute|].
  pose proof (unregistered_channel_fails_before_ipcRenderer
                initial "shell:exec" [JSString "rm"] 0 []) as H.
  destruct H as ((Hres & Hcalls & _) & _); [by vm_compute|].
  split; [exact Hres | exact Hcalls].
Defined.

(** C6: [isChannelAllowed] only reads the registry, and no step of any
    execution of the bridge changes the registry: after every sequence of
    events it is still [ALLOWED_CHANNELS], and [isChannelAllowed] answers
    as it did at initialization. *)
Theorem registry_fixed_at_initialization (es : list Event) (channel : string) :
  registry (run initial es) = ALLOWED_CHANNELS
  ∧ isChannelAllowed (run initial es) channel = isChannelAllowed initial channel
  ∧ (∀ w e, registry (step w e) = registry w)
  ∧ (∀ w w', registry w = registry w' →
             isChannelAllowed w channel = isChannelAllowed w' channel).
Proof.
  split; [apply run_registry|].
  split; [unfold isChannelAllowed; by rewrite run_registry|].
  split; [apply step_registry|].
  intros w w' Heq. unfold isChannelAllowed. by rewrite Heq.
Qed.

(** C7: on a registered channel, [on] returns a closure over a listener of
    its own; whatever happens afterwards, calling the closure removes that
    listener, if it is still there, and leaves every other listener of
    every channel in place and in order. *)
Theorem on_handle_removes_exactly_its_listener
    (es later : list Event) (channel : string) (cb : Callback) :
  isChannelAllowed (run initial es) channel = true →
  let w := run initial es in
  let mine := {| fn := next_fn w; once_wrapper := false; callback := cb |} in
  let w2 := run (on channel cb w).2 later in
  (on channel cb w).1 = Unsubscribe channel (next_fn w)
  ∧ listeners (on channel cb w).2 channel = listeners w channel ++ [mine]
  ∧ (∀ ch l, l ∈ listeners w ch → fn l ≠ next_fn w)
  ∧ (∀ ch l, l ∈ listeners w2 ch → fn l = next_fn w → ch = channel ∧ l = mine)
  ∧ (∀ ch, NoDup (fn <$> listeners w2 ch))
  ∧ (∀ ch, listeners (unsubscribe channel (next_fn w) w2).2 ch
           = filter (λ l, fn l ≠ next_fn w) (listeners w2 ch)).
Proof.
  intros Hallowed w mine w2.
  pose proof (reachable_well_formed es) as Hwf. fold w in Hwf.
  assert ((on channel cb w).2
          = addListener channel mine
              (log_ipc (ipc_on channel (next_fn w)) (fresh_fn w))) as Hw1.
  { unfold on. fold w in Hallowed. by rewrite Hallowed. }
  assert (sole_listener (next_fn w) channel mine w2) as Hsole.
  { apply run_sole_listener.
    - rewrite Hw1. simpl. lia.
    - apply appended_sole_listener; [done..|].
      intros ch. rewrite Hw1, listeners_addListener. reflexivity. }
  assert (well_formed w2) as (Hnd2 & _).
  { apply run_well_formed. replace (on channel cb w).2 with (step w (call_on channel cb))
      by done. by apply step_well_formed. }
  split; [unfold on; fold w in Hallowed; by rewrite Hallowed|].
  split. { rewrite Hw1, listeners_addListener. by case_decide. }
  split. { intros ch l Hin. destruct Hwf as (_ & Hlt & _). apply Hlt in Hin. lia. }
  split; [exact Hsole|]. split; [exact Hnd2|].
  intros ch. unfold unsubscribe. simpl. rewrite listeners_removeListener.
  change (listeners (log_ipc ?c w2)) with (listeners w2).
  case_decide as Hch.
  - subst ch. by apply remove_last_filter.
  - symmetry. apply filter_other_fn.
    intros (l & Hfn & Hin)%list_elem_of_fmap.
    destruct (Hsole ch l Hin) as [Heq _]; [done|]. by subst ch.
Qed.

Lemma on_handle_witness :
  isChannelAllowed (run initial [call_once "terminal:exit" 4]) "terminal:data" = true
  ∧ listeners
      (unsubscribe "terminal:data" 1
         (run (on "terminal:data" 5 (run initial [call_once "terminal:exit" 4])).2
              [call_on "terminal:data" 6; deliver "terminal:data" []])).2
      "terminal:data"
    = [ {| fn := 2; once_wrapper := false; callback := 6 |} ].
Proof.
  split; [by vm_compute|].
  pose proof (on_handle_removes_exactly_its_listener
                [call_once "terminal:exit" 4]
                [call_on "terminal:data" 6; deliver "terminal:data" []]
                "terminal:data" 5) as H.
  destruct H as (_ & _ & _ & _ & _ & Hrm); [by vm_compute|].
  etrans; [apply Hrm|]. by vm_compute.
Defined.

(** C8, as stated, fails: [once] creates a subscription but hands no
    closure back; its result is [undefined]. *)
Lemma once_returns_no_handle :
  listeners (once "terminal:data" 0 initial).2 "terminal:data"
  = [ {| fn := 0; once_wrapper := true; callback := 0 |} ]
  ∧ (once "terminal:data" 0 initial).1 = Undefined
  ∧ ¬ ∃ channel f, (once "terminal:data" 0 initial).1 = Unsubscribe channel f.
Proof.
  split; [by vm_compute|]. split; [by vm_compute|].
  intros (channel & f & Heq). vm_compute in Heq. discriminate Heq.
Qed.

(** C8, amended: on a registered channel [once] returns [undefined] and
    lists one once-wrapper of its own; whatever happens afterwards, the
    callback is called at most once through it, once it has been called
    the wrapper is no longer listed, and a delivery on the channel calls
    it if it is still listed and leaves it unlisted. *)
Theorem once_listener_called_at_most_once
    (es later : list Event) (channel : string) (cb : Callback) :
  isChannelAllowed (run initial es) channel = true →
  let w := run initial es in
  let f := next_fn w in
  let mine := {| fn := f; once_wrapper := true; callback := cb |} in
  let w1 := (once channel cb w).2 in
  let w2 := run w1 later in
  (once channel cb w).1 = Undefined
  ∧ listeners w1 channel = listeners w channel ++ [mine]
  ∧ times_invoked f w1 = 0
  ∧ times_listed f channel w1 = 1
  ∧ (∀ ch l, l ∈ listeners w2 ch → fn l = f → ch = channel ∧ l = mine)
  ∧ times_invoked f w2 + times_listed f channel w2 ≤ 1
  ∧ (∀ args,
       times_invoked f (emit channel args w2)
       = times_invoked f w2 + times_listed f channel w2
       ∧ times_listed f channel (emit channel args w2) = 0).
Proof.
  intros Hallowed w f mine w1 w2.
  pose proof (reachable_well_formed es) as Hwf. fold w in Hwf, Hallowed.
  assert (w1 = addListener channel mine
                 (log_ipc (ipc_once channel f) (fresh_fn w))) as Hw1.
  { unfold w1, once. by rewrite Hallowed. }
  assert (listeners w1 channel = listeners w channel ++ [mine]) as Hlist.
  { rewrite Hw1, listeners_addListener. by case_decide. }
  assert (well_formed w1) as Hwf1.
  { replace w1 with (step w (call_once channel cb)) by done.
    by apply step_well_formed. }
  assert (f < next_fn w1) as Hf by (rewrite Hw1; simpl; unfold f; lia).
  assert (sole_listener f channel mine w1) as Hsole1.
  { apply appended_sole_listener; [done..|].
    intros ch. rewrite Hw1, listeners_addListener. reflexivity. }
  assert (times_invoked f w1 = 0) as Hinv1.
  { unfold times_invoked. rewrite Hw1. simpl.
    destruct (filter _ _) as [|i rest] eqn:Hfilter; [done|].
    assert (i ∈ filter (λ i, i.1.1 = f) (invocations w)) as Hin
      by (rewrite Hfilter; by left).
    apply list_elem_of_filter in Hin as [Hi Hin].
    destruct Hwf as (_ & _ & Hold). apply Hold in Hin. unfold f in Hi. lia. }
  assert (times_listed f channel w1 = 1) as Hlisted1.
  { unfold times_listed. rewrite Hlist, filter_app, length_app.
    rewrite filter_cons_True by done. simpl.
    destruct (filter _ _) as [|l ls] eqn:Hfilter; [done|].
    assert (l ∈ filter (λ l, fn l = f) (listeners w channel)) as Hin
      by (rewrite Hfilter; by left).
    apply list_elem_of_filter in Hin as [Hl Hin].
    destruct Hwf as (_ & Hlt & _). apply Hlt in Hin. unfold f in Hl. lia. }
  assert (sole_listener f channel mine w2) as Hsole2
    by by apply run_sole_listener.
  assert (well_formed w2) as Hwf2 by by apply run_well_formed.
  split; [unfold once; by rewrite Hallowed|].
  split; [done|]. split; [done|]. split; [done|]. split; [exact Hsole2|].
  split.
  { etrans; [by apply (run_once_budget f channel mine w1 later)|]. lia. }
  intros args. split; [apply times_invoked_emit|].
  pose proof (step_once_budget f channel mine w2 (deliver channel args)) as Hstep.
  simpl in Hstep. rewrite times_invoked_emit in Hstep.
  pose proof (run_next_fn w1 later) as Hmono. fold w2 in Hmono.
  specialize (Hstep Hwf2). lapply Hstep; [|lia]. intros Hstep'.
  specialize (Hstep' eq_refl Hsole2). lia.
Qed.

Lemma once_listener_witness :
  isChannelAllowed (run initial [call_on "terminal:exit" 3]) "terminal:data" = true
  ∧ times_invoked 1
      (run (once "terminal:data" 9 (run initial [call_on "terminal:exit" 3])).2
           [deliver "terminal:data" [JSString "a"];
            deliver "terminal:data" [JSString "b"]])
    + times_listed 1 "terminal:data"
        (run (once "terminal:data" 9 (run initial [call_on "terminal:exit" 3])).2
             [deliver "terminal:data" [JSString "a"];
              deliver "terminal:data" [JSString "b"]])
    ≤ 1.
Proof.
  split; [by vm_compute|].
  pose proof (once_listener_called_at_most_once
                [call_on "terminal:exit" 3]
                [deliver "terminal:data" [JSString "a"];
                 deliver "terminal:data" [JSString "b"]]
                "terminal:data" 9) as H.
  destruct H as (_ & _ & _ & _ & _ & Hbudget & _); [by vm_compute|].
  exact Hbudget.
Defined.

End BridgeTheory.

Module GatewayTheory.
Import Gateway.

(** *** What an execution keeps *)

Lemma step_constants (s : Server) (e : Event) :
  port (step s e) = port s ∧ wsAuthToken (step s e) = wsAuthToken s
  ∧ (now s ≤ now (step s e))%N.
Proof.
  destruct e as [info|id p|ms|id]; simpl.
  - unfold accept. by destruct (verifyClient s info) as [[] ?].
  - by case_bool_decide.
  - split; [done|]. split; [done|]. lia.
  - done.
Qed.

Lemma run_constants (s : Server) (es : list Event) :
  port (run s es) = port s ∧ wsAuthToken (run s es) = wsAuthToken s
  ∧ (now s ≤ now (run s es))%N.
Proof.
  revert s. induction es as [|e es IH]; intros s; [done|]. simpl.
  destruct (IH (step s e)) as (-> & -> & Hnow).
  destruct (step_constants s e) as (-> & -> & Hstep).
  split; [done|]. split; [done|]. lia.
Qed.

Lemma run_app (s : Server) (es later : list Event) :
  run (run s es) later = run s (es ++ later).
Proof. unfold run. by rewrite foldl_app. Qed.

(** *** The guard on [wss.clients] *)

(** The guard reads [length] of a [Set]: it is never taken, and the
    answer is the one of a server with the same port that tracks no
    socket. *)
Lemma verifyClient_clients (s : Server) (info : Info) :
  verifyClient s info = verifyClient (start (port s) (wsAuthToken s)) info.
Proof. reflexivity. Qed.

(** *** Connections between events *)

Lemma conn_ok_new (t : N) : conn_ok (new_conn t).
Proof. unfold conn_ok, new_conn. simpl. naive_solver. Qed.

Lemma conn_ok_receive (token : string) (p : Parse) (c : Conn) :
  closed c ≠ Some by_peer → conn_ok c → conn_ok (receive token p c).
Proof.
  destruct c as [a fp t n calls cl]. intros Hpeer Hok.
  unfold receive. simpl in *. destruct fp; [|done].
  destruct Hok as (Hn & Hauth & Hnot & Hfirst). simpl in *.
  destruct a; [by destruct Hauth as (? & _)|].
  destruct Hnot as (Ht & Hopen); [done|]. subst n.
  unfold on_message, consume_first_message. simpl.
  set (c := {| authenticated := false; first_message_pending := false;
               authTimeout := t; clearTimeout_calls := 0;
               close_calls := calls; closed := cl |}).
  assert (conn_ok (authenticate c)) as Hyes.
  { unfold conn_ok. simpl. split; [done|]. split; [|done]. intros _.
    split; [done|]. destruct cl as [[code reason|]|].
    - destruct (Hfirst eq_refl code reason eq_refl) as (-> & -> & ->).
      by right.
    - done.
    - destruct Hopen as (_ & -> & due & ->); [done|]. left. by eauto. }
  assert (∀ code reason, conn_ok (ws_close code reason c)) as Hno.
  { intros code reason. unfold conn_ok. simpl. split; [done|].
    split; [done|]. split; [|done]. intros _. split; [done|].
    by destruct cl. }
  destruct p as [|data]; [apply Hno|].
  destruct (get_authToken data) as [v|]; [|apply Hno].
  destruct (strict_eq_string v token); [apply Hyes | apply Hno].
Qed.

Lemma conn_ok_tick (t : N) (c : Conn) : conn_ok c → conn_ok (tick t c).
Proof.
  destruct c as [a fp tm n calls cl]. unfold conn_ok, tick. simpl.
  intros (Hn & Hauth & Hnot & Hfirst).
  destruct tm as [due| |]; [|done..].
  case_bool_decide; [|done].
  destruct a; [by destruct Hauth as (_ & [(? & _) | (? & _)])|].
  unfold on_timeout. simpl. split; [done|]. split; [done|].
  split; [intros _; split; [done | by destruct cl]|].
  intros -> code reason Hcl. destruct cl as [[code' reason'|]|]; [|done|].
  - by destruct (Hfirst eq_refl code' reason' eq_refl) as (? & _).
  - by injection Hcl as <- <-.
Qed.

Lemma conn_ok_hang_up (c : Conn) : conn_ok c → conn_ok (hang_up c).
Proof.
  destruct c as [a fp tm n calls cl]. unfold conn_ok, hang_up. simpl.
  intros (Hn & Hauth & Hnot & Hfirst).
  split; [done|]. split; [|split].
  - intros Ha. destruct (Hauth Ha) as (Hfp & [(? & ? & Hcl) | (? & Hcl)]).
    + split; [done|]. left. split; [done|]. split; [done|].
      right. by destruct Hcl as [-> | ->].
    + split; [done|]. right. by rewrite Hcl.
  - intros Ha. destruct (Hnot Ha) as (? & _). split; [done|]. by destruct cl.
  - intros Hfp code reason Hcl. destruct cl as [cause|]; [|done].
    by apply Hfirst.
Qed.

(** No handler reopens a socket, and none records that the peer left. *)
Lemma ws_close_closed (code : N) (reason : string) (c : Conn) :
  closed (ws_close code reason c)
  = Some (default (by_server code reason) (closed c)).
Proof. unfold ws_close. simpl. by destruct (closed c). Qed.

Lemma receive_closed (token : string) (p : Parse) (c : Conn) (cause : CloseCause) :
  closed c = Some cause → closed (receive token p c) = Some cause.
Proof.
  intros Hc. unfold receive. destruct (first_message_pending c); [|done].
  unfold on_message. destruct p as [|data]; [simpl; by rewrite Hc|].
  destruct (get_authToken data) as [v|]; [|simpl; by rewrite Hc].
  destruct (strict_eq_string v token); simpl; by rewrite Hc.
Qed.

Lemma receive_stays_closed (token : string) (p : Parse) (c : Conn) :
  closed (receive token p c) = None → closed c = None.
Proof.
  destruct (closed c) as [cause|] eqn:Hc; [|done].
  by rewrite (receive_closed token p c cause).
Qed.

Lemma receive_not_by_peer (token : string) (p : Parse) (c : Conn) :
  closed c ≠ Some by_peer → closed (receive token p c) ≠ Some by_peer.
Proof.
  intros Hc. destruct (closed c) as [cause|] eqn:Hcl.
  - by rewrite (receive_closed token p c cause).
  - unfold receive. destruct (first_message_pending c); [|by rewrite Hcl].
    unfold on_message. destruct p as [|data]; [simpl; by rewrite Hcl|].
    destruct (get_authToken data) as [v|]; [|simpl; by rewrite Hcl].
    destruct (strict_eq_string v token); simpl; by rewrite Hcl.
Qed.

Lemma tick_closed (t : N) (c : Conn) (cause : CloseCause) :
  closed c = Some cause →
  closed (tick t c) = Some cause ∧ authenticated (tick t c) = authenticated c
  ∧ first_message_pending (tick t c) = first_message_pending c.
Proof.
  intros Hc. unfold tick. destruct (authTimeout c); [|done..].
  case_bool_decide; [|done]. unfold on_timeout. simpl.
  destruct (authenticated c); simpl; [done|]. by rewrite Hc.
Qed.

Lemma tick_stays_closed (t : N) (c : Conn) :
  closed (tick t c) = None → closed c = None.
Proof.
  destruct (closed c) as [cause|] eqn:Hc; [|done].
  by destruct (tick_closed t c cause Hc) as (-> & _).
Qed.

Lemma tick_not_by_peer (t : N) (c : Conn) :
  closed c ≠ Some by_peer → closed (tick t c) ≠ Some by_peer.
Proof.
  intros Hc. destruct (closed c) as [cause|] eqn:Hcl.
  - by destruct (tick_closed t c cause Hcl) as (-> & _).
  - unfold tick. destruct (authTimeout c); [|by rewrite Hcl..].
    case_bool_decide; [|by rewrite Hcl]. unfold on_timeout. simpl.
    destruct (authenticated c); simpl; by rewrite Hcl.
Qed.

Lemma start_consistent (p : N) (token : string) : consistent (start p token).
Proof.
  split; [|split]; simpl; [|done|by constructor].
  intros id Hin. by apply not_elem_of_empty in Hin.
Qed.

Lemma step_consistent (s : Server) (e : Event) :
  consistent s → consistent (step s e).
Proof.
  intros (Htracked & Hopen & Hok). destruct e as [info|id p|ms|id]; simpl.
  - unfold accept. destruct (verifyClient s info) as [[] warnings]; [|done].
    split; [|split]; simpl.
    + intros id [->%elem_of_singleton | Hin]%elem_of_union.
      * exists (new_conn (now s)).
        by rewrite lookup_app_r, Nat.sub_diag by done.
      * destruct (Htracked id Hin) as (c & Hc & Hpeer). exists c.
        split; [|done]. rewrite lookup_app_l; [done|].
        by eapply lookup_lt_Some.
    + intros id c [Hc | [Hge Hc]]%lookup_app_Some Hnone.
      * apply elem_of_union_r. by eapply Hopen.
      * apply list_lookup_singleton_Some in Hc as [Hid _].
        apply elem_of_union_l, elem_of_singleton. lia.
    + apply Forall_app. split; [done|]. constructor; [apply conn_ok_new | done].
  - case_bool_decide as Hin; [|done].
    destruct (Htracked id Hin) as (c0 & Hc0 & Hpeer0).
    split; [|split]; simpl.
    + intros id' Hin'. destruct (Htracked id' Hin') as (c & Hc & Hpeer).
      destruct (decide (id = id')) as [->|Hne].
      * rewrite list_lookup_alter_eq, Hc. simpl. eexists. split; [done|].
        by apply receive_not_by_peer.
      * rewrite list_lookup_alter_ne by done. by eauto.
    + intros id' c Hc Hnone. destruct (decide (id = id')) as [->|Hne].
      * done.
      * rewrite list_lookup_alter_ne in Hc by done. by eapply Hopen.
    + rewrite Forall_lookup in Hok. apply Forall_lookup. intros i c.
      destruct (decide (id = i)) as [->|Hne].
      * rewrite list_lookup_alter_eq, Hc0. simpl. intros [= <-].
        apply conn_ok_receive; [done | by eapply Hok].
      * rewrite list_lookup_alter_ne by done. apply Hok.
  - split; [|split]; simpl.
    + intros id Hin. destruct (Htracked id Hin) as (c & Hc & Hpeer).
      rewrite list_lookup_fmap, Hc. simpl. eexists. split; [done|].
      by apply tick_not_by_peer.
    + intros id c. rewrite list_lookup_fmap.
      destruct (conns s !! id) as [c0|] eqn:Hc0; [|done]. simpl.
      intros [= <-] Hnone. apply (Hopen id c0 Hc0).
      by eapply tick_stays_closed.
    + apply Forall_fmap. eapply Forall_impl; [done|].
      intros c. apply conn_ok_tick.
  - split; [|split]; simpl.
    + intros id' [Hin Hne%not_elem_of_singleton]%elem_of_difference.
      rewrite list_lookup_alter_ne by done. by apply Htracked.
    + intros id' c Hc Hnone. destruct (decide (id = id')) as [->|Hne].
      * rewrite list_lookup_alter_eq in Hc.
        destruct (conns s !! id') as [c0|]; [|done]. simpl in Hc.
        injection Hc as <-. simpl in Hnone. by destruct (closed c0).
      * rewrite list_lookup_alter_ne in Hc by done.
        apply elem_of_difference. split; [by eapply Hopen|].
        by apply not_elem_of_singleton.
    + apply Forall_alter; [done|]. intros c _. apply conn_ok_hang_up.
Qed.

Lemma run_consistent (s : Server) (es : list Event) :
  consistent s → consistent (run s es).
Proof.
  revert s. induction es as [|e es IH]; intros s Hs; [done|].
  simpl. by apply IH, step_consistent.
Qed.

Lemma reachable_consistent (p : N) (token : string) (es : list Event) :
  consistent (run (start p token) es).
Proof. apply run_consistent, start_consistent. Qed.

Lemma reachable_conn_ok (p : N) (token : string) (es : list Event)
    (id : nat) (c : Conn) :
  conns (run (start p token) es) !! id = Some c → conn_ok c.
Proof.
  intros Hc. destruct (reachable_consistent p token es) as (_ & _ & Hok).
  rewrite Forall_lookup in Hok. by eapply Hok.
Qed.

(** *** A connection that is sent nothing *)

Lemma timed_out_eq (t : N) :
  timed_out t
  = {| authenticated := false; first_message_pending := true;
       authTimeout := Fired; clearTimeout_calls := 0;
       close_calls := [(4401%N, "Authentication timeout")];
       closed := Some (by_server 4401 "Authentication timeout") |}.
Proof.
  unfold timed_out, tick. simpl. by rewrite bool_decide_eq_true_2 by lia.
Qed.

Lemma tick_new_conn (t t' : N) :
  tick t' (new_conn t)
  = if bool_decide (t + AUTH_TIMEOUT_MS ≤ t')%N then timed_out t else new_conn t.
Proof.
  unfold tick. simpl. case_bool_decide; [|done]. by rewrite timed_out_eq.
Qed.

Lemma tick_timed_out (t t' : N) : tick t' (timed_out t) = timed_out t.
Proof. by rewrite timed_out_eq. Qed.

Lemma accept_keeps (info : Info) (s : Server) (id : nat) (c : Conn) :
  conns s !! id = Some c → conns (accept info s) !! id = Some c.
Proof.
  intros Hc. unfold accept. destruct (verifyClient s info) as [[] ?]; [|done].
  simpl. rewrite lookup_app_l; [done | by eapply lookup_lt_Some].
Qed.

Lemma accept_tracks (info : Info) (s : Server) (id : nat) :
  id ∈ clients s → id ∈ clients (accept info s).
Proof.
  intros Hin. unfold accept. destruct (verifyClient s info) as [[] ?]; [|done].
  simpl. by apply elem_of_union_r.
Qed.

(** What an accepted attempt adds. *)
Lemma accept_accepted (info : Info) (s : Server) :
  (verifyClient s info).1 = true →
  conns (accept info s) = conns s ++ [new_conn (now s)]
  ∧ clients (accept info s) = {[length (conns s)]} ∪ clients s
  ∧ now (accept info s) = now s.
Proof.
  intros Hok. unfold accept. destruct (verifyClient s info) as [ok warnings].
  simpl in Hok. by subst ok.
Qed.

Lemma step_waiting (id : nat) (t : N) (s : Server) (e : Event) :
  quiet id [e] = true → waiting id t s → waiting id t (step s e).
Proof.
  intros Hquiet [Hin Hwait]. simpl in Hquiet. rewrite andb_true_r in Hquiet.
  destruct e as [info|id' p|ms|id']; simpl.
  - assert (now (accept info s) = now s) as Hsame
      by (unfold accept; by destruct (verifyClient s info) as [[] ?]).
    split; [by apply accept_tracks|]. rewrite Hsame.
    destruct Hwait as [[? Hc] | [? Hc]]; [left | right];
      (split; [done | by apply accept_keeps]).
  - apply bool_decide_eq_true in Hquiet. case_bool_decide; [|done].
    split; [done|]. simpl. by rewrite list_lookup_alter_ne.
  - split; [done|]. simpl. rewrite list_lookup_fmap.
    destruct Hwait as [[Hnow ->] | [Hnow ->]]; simpl.
    + rewrite tick_new_conn. case_bool_decide; [right | left]; split; (done || lia).
    + rewrite tick_timed_out. right. split; [lia | done].
  - apply bool_decide_eq_true in Hquiet. split; simpl.
    + apply elem_of_difference. split; [done|]. apply not_elem_of_singleton.
      congruence.
    + by rewrite list_lookup_alter_ne.
Qed.

Lemma run_waiting (id : nat) (t : N) (s : Server) (es : list Event) :
  quiet id es = true → waiting id t s → waiting id t (run s es).
Proof.
  revert s. induction es as [|e es IH]; intros s Hquiet Hwait; [done|].
  simpl in Hquiet. apply andb_true_iff in Hquiet as [He Hes].
  simpl. apply IH; [done|]. apply step_waiting; [|done].
  simpl. by rewrite He.
Qed.

(** A message to a socket that is tracked. *)
Lemma tracked_message (s : Server) (id : nat) (p : Parse) (c : Conn) :
  id ∈ clients s → conns s !! id = Some c →
  conns (step s (message id p)) !! id = Some (receive (wsAuthToken s) p c).
Proof.
  intros Hin Hc. simpl. rewrite bool_decide_eq_true_2 by done. simpl.
  by rewrite list_lookup_alter_eq, Hc.
Qed.

(** *** What the once-listener reads of a parsed message *)

Lemma own_property_absent (key : string) (props : list (string * JSValue)) :
  key ∉ props.*1 → own_property key props = None.
Proof.
  induction props as [|[k v] props IH]; [done|]. simpl.
  intros [Hne Hrest]%not_elem_of_cons. rewrite IH by done.
  by rewrite bool_decide_eq_false_2.
Qed.

Lemma own_property_last (key : string) (before after : list (string * JSValue))
    (v : JSValue) :
  key ∉ after.*1 → own_property key (before ++ (key, v) :: after) = Some v.
Proof.
  intros Hafter. induction before as [|[k v'] before IH]; simpl.
  - rewrite own_property_absent by done. by rewrite bool_decide_eq_true_2.
  - by rewrite IH.
Qed.

Lemma strict_eq_string_false (v : JSValue) (token : string) :
  v ≠ JSString token → strict_eq_string v token = false.
Proof.
  intros Hne. destruct v; try done. simpl. apply bool_decide_eq_false_2.
  congruence.
Qed.

Lemma strict_eq_string_true (v : JSValue) (token : string) :
  strict_eq_string v token = true → v = JSString token.
Proof.
  destruct v; try done. simpl. intros Heq%bool_decide_eq_true. by subst.
Qed.

Lemma receive_token (token : string) (t : N) (data : JSValue) :
  get_authToken data = Some (JSString token) →
  receive token (Parsed data) (new_conn t)
  = {| authenticated := true; first_message_pending := false;
       authTimeout := Cleared; clearTimeout_calls := 1;
       close_calls := []; closed := None |}.
Proof.
  intros Hv. unfold receive, on_message. simpl. rewrite Hv. simpl.
  by rewrite bool_decide_eq_true_2.
Qed.

(** *** A timer that was cancelled *)




(** *** The claims about the gateway *)

(** C2, as the code has it: a connection that is not [Closed] is in
    [wss.clients], and still [verifyClient] answers a further attempt
    as a server that has just started would. The guard reads [length]
    of a [Set], which is [undefined], so it never refuses: an attempt
    with an allowed origin or host is accepted and becomes a second
    connection awaiting authentication, next to the first. *)
Theorem second_attempt_accepted
    (p : N) (token : string) (es : list Event) (id : nat) (c : Conn)
    (info : Info) :
  conns (run (start p token) es) !! id = Some c →
  conn_state c ≠ Closed →
  let s := run (start p token) es in
  id ∈ clients s
  ∧ verifyClient s info = verifyClient (start p token) info
  ∧ ((verifyClient (start p token) info).1 = true →
       conns (step s (attempt info)) = conns s ++ [new_conn (now s)]
       ∧ clients (step s (attempt info)) = {[length (conns s)]} ∪ clients s
       ∧ state_of (step s (attempt info)) id = Some (conn_state c)
       ∧ state_of (step s (attempt info)) (length (conns s))
         = Some AwaitingAuth).
Proof.
  intros Hc Hstate s. fold s in Hc.
  destruct (reachable_consistent p token es) as (_ & Hopen & _).
  fold s in Hopen.
  assert (verifyClient s info = verifyClient (start p token) info) as Hsame.
  { rewrite verifyClient_clients. unfold s.
    by destruct (run_constants (start p token) es) as (-> & -> & _). }
  split; [|split; [done|]].
  - apply (Hopen id c Hc). unfold conn_state in Hstate. by destruct (closed c).
  - intros Hok. rewrite <- Hsame in Hok. simpl.
    destruct (accept_accepted info s Hok) as (Hconns & Hclients & _).
    split; [done|]. split; [done|]. unfold state_of. rewrite Hconns.
    split.
    + rewrite lookup_app_l by by eapply lookup_lt_Some. by rewrite Hc.
    + by rewrite lookup_app_r, Nat.sub_diag by done.
Qed.

Lemma second_attempt_witness :
  0 ∈ clients
        (run (start 3000 "7f3a")
           [attempt {| info_origin := None; headers_origin := None;
                       headers_host := Some "localhost:3000" |}])
  ∧ (verifyClient
       (run (start 3000 "7f3a")
          [attempt {| info_origin := None; headers_origin := None;
                      headers_host := Some "localhost:3000" |}])
       {| info_origin := Some "http://localhost:3000";
          headers_origin := Some "http://localhost:3000";
          headers_host := Some "localhost:3000" |}).1 = true
  ∧ state_of
      (run (start 3000 "7f3a")
         [attempt {| info_origin := None; headers_origin := None;
                     headers_host := Some "localhost:3000" |};
          attempt {| info_origin := Some "http://localhost:3000";
                     headers_origin := Some "http://localhost:3000";
                     headers_host := Some "localhost:3000" |}]) 0
    = Some AwaitingAuth
  ∧ state_of
      (run (start 3000 "7f3a")
         [attempt {| info_origin := None; headers_origin := None;
                     headers_host := Some "localhost:3000" |};
          attempt {| info_origin := Some "http://localhost:3000";
                     headers_origin := Some "http://localhost:3000";
                     headers_host := Some "localhost:3000" |}]) 1
    = Some AwaitingAuth.
Proof.
  pose proof (second_attempt_accepted 3000 "7f3a"
                [attempt {| info_origin := None; headers_origin := None;
                            headers_host := Some "localhost:3000" |}]
                0 (new_conn 0)
                {| info_origin := Some "http://localhost:3000";
                   headers_origin := Some "http://localhost:3000";
                   headers_host := Some "localhost:3000" |}
                eq_refl) as H.
  destruct H as (Hin & Hsame & Hnew); [discriminate|].
  split; [exact Hin|]. split; [reflexivity|].
  destruct (Hnew eq_refl) as (_ & _ & Hfirst & Hsecond).
  split; [exact Hfirst | exact Hsecond].
Defined.

(** C3: with no client connected, [verifyClient] accepts every origin that
    merely begins with an allowed one; ["http://localhost.attacker.example"]
    is accepted although it is none of the loopback origins and does not
    begin with a trusted local scheme. An origin that begins with no
    allowed entry, such as ["http://attacker.example"], is rejected. *)
Theorem verifyClient_accepts_origin_by_prefix
    (p : N) (token suffix : string) (host : option string) :
  (verifyClient (start p token)
     {| info_origin := Some ("http://localhost" +:+ suffix);
        headers_origin := Some ("http://localhost" +:+ suffix);
        headers_host := host |}).1 = true
  ∧ (verifyClient (start 3000 token)
       {| info_origin := Some "http://localhost.attacker.example";
          headers_origin := Some "http://localhost.attacker.example";
          headers_host := host |}).1 = true
  ∧ spec_origin_allowed 3000 "http://localhost.attacker.example" = false
  ∧ (verifyClient (start p token)
       {| info_origin := Some "http://attacker.example";
          headers_origin := Some "http://attacker.example";
          headers_host := host |}).1 = false.
Proof.
  split; [by destruct suffix|]. by repeat split.
Qed.

(** C4: with no client connected and no origin presented, [verifyClient]
    accepts every host that merely begins with [localhost] (or with
    [127.0.0.1]); ["localhost.attacker.example"] is accepted although it
    is not a loopback name. Without a host, or with a host that begins
    with neither, the attempt is rejected. *)
Theorem verifyClient_accepts_host_by_prefix
    (p : N) (token suffix : string) :
  (verifyClient (start p token)
     {| info_origin := None; headers_origin := None;
        headers_host := Some ("localhost" +:+ suffix) |}).1 = true
  ∧ (verifyClient (start p token)
       {| info_origin := None; headers_origin := None;
          headers_host := Some "localhost.attacker.example" |}).1 = true
  ∧ spec_loopback_host "localhost.attacker.example" = false
  ∧ (verifyClient (start p token)
       {| info_origin := None; headers_origin := None;
          headers_host := None |}).1 = false
  ∧ (verifyClient (start p token)
       {| info_origin := None; headers_origin := None;
          headers_host := Some "attacker.example" |}).1 = false.
Proof.
  split; [by destruct suffix|]. by repeat split.
Qed.

(** C5, as stated, fails: the message [null] parses, carries no matching
    token, and yet the socket is closed with 4400, not with 4403, because
    reading [authToken] of [null] throws inside the [try]. *)
Lemma parsed_null_closes_as_malformed :
  close_cause
    (run (start 3000 "7f3a")
       [attempt {| info_origin := None; headers_origin := None;
                   headers_host := Some "localhost:3000" |};
        message 0 (Parsed JSNull)])
    0
  = Some (by_server 4400 "Invalid message format")
  ∧ close_cause
      (run (start 3000 "7f3a")
         [attempt {| info_origin := None; headers_origin := None;
                     headers_host := Some "localhost:3000" |};
          message 0 (Parsed JSNull)])
      0
    ≠ Some (by_server 4403 "Invalid auth token").
Proof. split; [reflexivity | discriminate]. Qed.

(** C5, amended: an accepted connection that is sent nothing awaits
    authentication until 5000 ms have passed and is closed with 4401 from
    then on, whatever arrives later. Its first message, arriving before
    that, closes it with 4400 if it does not parse or parses to [null]
    (reading [authToken] of [null] throws inside the [try]); closes it
    with 4403 if it parses to anything else whose [authToken] is not the
    token: a boolean, a number, a string (the token itself included), an
    array, an object without an [authToken] member, or an object whose
    last [authToken] member is not the string token; and makes it
    [Active] if it parses to an object whose last [authToken] member is
    the string token, after which the passing of time no longer closes
    it. The three codes differ. *)
Theorem handshake_outcomes
    (p : N) (token : string) (es others : list Event) (info : Info) :
  (verifyClient (run (start p token) es) info).1 = true →
  quiet (length (conns (run (start p token) es))) others = true →
  let s := run (start p token) es in
  let id := length (conns s) in
  let s2 := run (step s (attempt info)) others in
  let cause := λ data, close_cause (step s2 (message id (Parsed data))) id in
  let malformed := Some (by_server 4400 "Invalid message format") in
  let invalid := Some (by_server 4403 "Invalid auth token") in
  let timeout := Some (by_server 4401 "Authentication timeout") in
  ((now s2 < now s + 5000)%N →
     state_of s2 id = Some AwaitingAuth
     ∧ close_cause (step s2 (message id SyntaxError)) id = malformed
     ∧ cause JSNull = malformed
     ∧ (∀ b, cause (JSBool b) = invalid)
     ∧ (∀ n, cause (JSNumber n) = invalid)
     ∧ (∀ text, cause (JSString text) = invalid)
     ∧ (∀ elems, cause (JSArray elems) = invalid)
     ∧ (∀ props, "authToken" ∉ props.*1 → cause (JSObject props) = invalid)
     ∧ (∀ before v after,
          "authToken" ∉ after.*1 → v ≠ JSString token →
          cause (JSObject (before ++ ("authToken", v) :: after)) = invalid)
     ∧ (∀ before after ms,
          "authToken" ∉ after.*1 →
          let s3 :=
            step s2
              (message id
                 (Parsed (JSObject (before ++ ("authToken", JSString token)
                                           :: after)))) in
          state_of s3 id = Some Active
          ∧ state_of (step s3 (elapse ms)) id = Some Active))
  ∧ ((now s + 5000 ≤ now s2)%N →
       close_cause s2 id = timeout
       ∧ ∀ m, close_cause (step s2 (message id m)) id = timeout)
  ∧ (4401 ≠ 4403 ∧ 4403 ≠ 4400 ∧ 4400 ≠ 4401)%N.
Proof.
  intros Haccept Hquiet s id s2 cause malformed invalid timeout.
  fold s in Haccept.
  destruct (accept_accepted info s Haccept) as (Hconns & Hclients & Hnow).
  assert (waiting id (now s) (step s (attempt info))) as Hwait.
  { split; simpl.
    - rewrite Hclients. by apply elem_of_union_l, elem_of_singleton.
    - left. rewrite Hnow, Hconns. split; [unfold AUTH_TIMEOUT_MS; lia|].
      by rewrite lookup_app_r, Nat.sub_diag by done. }
  apply (run_waiting _ _ _ others Hquiet) in Hwait.
  fold s in Hwait. fold id in Hwait. fold s2 in Hwait.
  assert (wsAuthToken s2 = token) as Htoken.
  { unfold s2. destruct (run_constants (step s (attempt info)) others) as (_ & -> & _).
    destruct (step_constants s (attempt info)) as (_ & -> & _).
    unfold s. by destruct (run_constants (start p token) es) as (_ & -> & _). }
  destruct Hwait as [Hin Hwait]. unfold AUTH_TIMEOUT_MS in Hwait.
  split; [|split; [|done]].
  - intros Hbefore. destruct Hwait as [[_ Hc] | [? _]]; [|lia].
    assert (∀ m, close_cause (step s2 (message id m)) id
                 = closed (receive token m (new_conn (now s)))) as Hfirst.
    { intros m. unfold close_cause.
      by rewrite (tracked_message s2 id m _ Hin Hc), Htoken. }
    assert (∀ data v, get_authToken data = Some v → v ≠ JSString token →
                      cause data = invalid) as Hinvalid.
    { intros data v Hv Hne. unfold cause. rewrite Hfirst.
      unfold receive, on_message. simpl. rewrite Hv.
      by rewrite strict_eq_string_false. }
    split; [unfold state_of; by rewrite Hc|].
    split; [by rewrite Hfirst|].
    split; [unfold cause; by rewrite Hfirst|].
    split; [intros b; by apply (Hinvalid _ JSUndefined)|].
    split; [intros n; by apply (Hinvalid _ JSUndefined)|].
    split; [intros text; by apply (Hinvalid _ JSUndefined)|].
    split; [intros elems; by apply (Hinvalid _ JSUndefined)|].
    split.
    { intros props Habsent. apply (Hinvalid _ JSUndefined); [|done].
      simpl. by rewrite own_property_absent. }
    split.
    { intros before v after Hafter Hne. apply (Hinvalid _ v); [|done].
      simpl. by rewrite own_property_last. }
    intros before after ms Hafter s3.
    assert (conns s3 !! id
            = Some {| authenticated := true; first_message_pending := false;
                      authTimeout := Cleared; clearTimeout_calls := 1;
                      close_calls := []; closed := None |}) as Hc3.
    { unfold s3. rewrite (tracked_message s2 id _ _ Hin Hc), Htoken.
      rewrite receive_token; [done|]. simpl. by rewrite own_property_last. }
    unfold state_of. split; [by rewrite Hc3|].
    simpl. by rewrite list_lookup_fmap, Hc3.
  - intros Hafter. destruct Hwait as [[? _] | [_ Hc]]; [lia|].
    rewrite timed_out_eq in Hc.
    split; [unfold close_cause; by rewrite Hc|].
    intros m. unfold close_cause.
    rewrite (tracked_message s2 id m _ Hin Hc). simpl.
    by apply receive_closed.
Qed.

Lemma handshake_outcomes_witness :
  (verifyClient (run (start 3000 "7f3a") [])
     {| info_origin := None; headers_origin := None;
        headers_host := Some "localhost:3000" |}).1 = true
  ∧ quiet 0 [elapse 4999; elapse 1] = true
  ∧ close_cause
      (run (step (run (start 3000 "7f3a") [])
              (attempt {| info_origin := None; headers_origin := None;
                          headers_host := Some "localhost:3000" |}))
           [elapse 4999; elapse 1])
      0
    = Some (by_server 4401 "Authentication timeout").
Proof.
  split; [reflexivity|]. split; [reflexivity|].
  refine (proj1 (proj1 (proj2 (handshake_outcomes 3000 "7f3a" []
                                 [elapse 4999; elapse 1]
                                 {| info_origin := None; headers_origin := None;
                                    headers_host := Some "localhost:3000" |}
                                 _ _)) _)).
  - reflexivity.
  - reflexivity.
  - by vm_compute.
Defined.




End GatewayTheory.

Module BridgeExtras.
Import Bridge BridgeTheory.

(** *** Registered channels in an execution *)

Lemma run_isChannelAllowed (es : list Event) (channel : string) :
  isChannelAllowed (run initial es) channel
  = bool_decide (channel ∈ channel_names).
Proof. apply isChannelAllowed_registry, run_registry. Qed.

Lemma removeListener_console (channel : string) (f : nat) (w : World) :
  console_error (removeListener channel f w) = console_error w.
Proof.
  unfold removeListener. destruct (_events w !! channel) as [ls|]; [|done].
  by destruct (remove_last f ls).
Qed.

Lemma emit_console (channel : string) (args : Args) (w : World) :
  console_error (emit channel args w) = console_error w.
Proof.
  unfold emit. generalize (listeners w channel) as ls. intros ls.
  revert w. induction ls as [|l ls IH]; intros w; [done|].
  simpl. rewrite IH. unfold fire. simpl.
  destruct (once_wrapper l); [apply removeListener_console | done].
Qed.

Lemma step_console (w : World) (e : Event) :
  registry w = ALLOWED_CHANNELS →
  console_error (step w e)
  = console_error w ++ option_list (refusal e).
Proof.
  intros Hreg.
  destruct e as [ch args|ch args|ch cb|ch cb|ch f| | | |ch args]; simpl;
    unfold send, invoke, on, once, unsubscribe, getVersion, getCwd, getEnv;
    rewrite ?(isChannelAllowed_registry w) by done;
    try (case_bool_decide; simpl; by rewrite ?app_nil_r).
  - simpl. by rewrite removeListener_console, app_nil_r.
  - by rewrite app_nil_r.
  - by rewrite app_nil_r.
  - by rewrite app_nil_r.
  - by rewrite emit_console, app_nil_r.
Qed.

Lemma run_console (w : World) (es : list Event) :
  registry w = ALLOWED_CHANNELS →
  console_error (run w es) = console_error w ++ omap refusal es.
Proof.
  revert w. induction es as [|e es IH]; intros w Hreg; simpl.
  - by rewrite app_nil_r.
  - rewrite IH by by rewrite step_registry.
    rewrite step_console by done. rewrite <- app_assoc. f_equal.
    by destruct (refusal e).
Qed.

(** X1: in every execution, [send] and [invoke] on one of the enumerated
    channels hand the channel and the arguments unchanged to
    [ipcRenderer], as one call appended to those made so far; they log
    nothing and leave the listener arrays alone. [send] returns
    [undefined], [invoke] the reply to its call. *)
Theorem registered_channel_is_forwarded
    (es : list Event) (channel : string) (args : Args) :
  channel ∈ channel_names →
  ((send channel args (run initial es)).1 = Undefined
   ∧ ipc_calls (send channel args (run initial es)).2
     = ipc_calls (run initial es) ++ [ipc_send channel args]
   ∧ console_error (send channel args (run initial es)).2
     = console_error (run initial es)
   ∧ _events (send channel args (run initial es)).2 = _events (run initial es))
  ∧ ((invoke channel args (run initial es)).1 = Reply (ipc_invoke channel args)
     ∧ ipc_calls (invoke channel args (run initial es)).2
       = ipc_calls (run initial es) ++ [ipc_invoke channel args]
     ∧ console_error (invoke channel args (run initial es)).2
       = console_error (run initial es)
     ∧ _events (invoke channel args (run initial es)).2
       = _events (run initial es)).
Proof.
  intros Hin. unfold send, invoke.
  by rewrite run_isChannelAllowed, bool_decide_eq_true_2.
Qed.

Lemma registered_channel_witness :
  "file:read" ∈ channel_names
  ∧ ipc_calls
      (send "file:read" [JSString "/etc/hosts"]
         (run initial [call_send "terminal:kill" []])).2
    = [ipc_send "terminal:kill" []; ipc_send "file:read" [JSString "/etc/hosts"]].
Proof.
  assert ("file:read" ∈ channel_names) as Hin
    by (apply (bool_decide_unpack _); by vm_compute).
  split; [exact Hin|].
  destruct (registered_channel_is_forwarded
              [call_send "terminal:kill" []] "file:read"
              [JSString "/etc/hosts"] Hin) as ((_ & Hcalls & _) & _).
  etrans; [exact Hcalls|]. by vm_compute.
Defined.

(** X2: the [console.error] log of an execution holds exactly one line
    for each call of [send], [invoke], [on] or [once] on a channel outside
    the enumeration, in the order of the calls, and nothing else: allowed
    calls, unsubscriptions, the metadata getters and deliveries log
    nothing. *)
Theorem console_error_lists_the_refusals (es : list Event) :
  console_error (run initial es) = omap refusal es
  ∧ length (console_error (run initial es))
    = length (filter (λ e, is_Some (refusal e)) es).
Proof.
  assert (console_error (run initial es) = omap refusal es) as Hlog
    by by rewrite run_console.
  split; [done|]. rewrite Hlog. clear Hlog.
  induction es as [|e es IH]; [done|]. rewrite filter_cons.
  change (omap refusal (e :: es))
    with (match refusal e with
          | Some line => line :: omap refusal es
          | None => omap refusal es
          end).
  case_decide as Hsome.
  - destruct Hsome as [line ->]. simpl. by rewrite IH.
  - destruct (refusal e) as [line|]; [by destruct Hsome|done].
Qed.

(** X3: [getCwd] and [getEnv] behave as [invoke] on ['system:cwd'] and
    ['system:env'] without arguments, in every execution. [getVersion]
    transmits on ['app:get-version'], a channel that [send] and [invoke]
    refuse. *)
Theorem metadata_getters (es : list Event) (args : Args) :
  getCwd (run initial es) = invoke "system:cwd" [] (run initial es)
  ∧ getEnv (run initial es) = invoke "system:env" [] (run initial es)
  ∧ ipc_calls (getVersion (run initial es)).2
    = ipc_calls (run initial es) ++ [ipc_sendSync "app:get-version" []]
  ∧ (send "app:get-version" args (run initial es)).1
    = Throws (not_allowed "app:get-version")
  ∧ (invoke "app:get-version" args (run initial es)).1
    = Rejected (not_allowed "app:get-version").
Proof.
  assert ("system:cwd" ∈ channel_names) as Hcwd
    by (apply (bool_decide_unpack _); by vm_compute).
  assert ("system:env" ∈ channel_names) as Henv
    by (apply (bool_decide_unpack _); by vm_compute).
  assert ("app:get-version" ∉ channel_names) as Hversion
    by (apply (bool_decide_unpack _); by vm_compute).
  unfold getCwd, getEnv, getVersion, invoke, send.
  rewrite !run_isChannelAllowed.
  rewrite (bool_decide_eq_true_2 _ Hcwd), (bool_decide_eq_true_2 _ Henv).
  by rewrite (bool_decide_eq_false_2 _ Hversion).
Qed.

(** *** The listener table *)

Lemma removeListener_tidy (channel : string) (f : nat) (w : World) :
  tidy w → tidy (removeListener channel f w).
Proof.
  intros Htidy. unfold removeListener.
  destruct (_events w !! channel) as [ls|] eqn:Hls; [|done].
  destruct (remove_last f ls) as [|l' ls'] eqn:Hrm; intros ch ls0; simpl.
  - rewrite lookup_delete. case_decide; [done | apply Htidy].
  - rewrite lookup_insert. case_decide as Hch; [|apply Htidy].
    subst ch. intros [= <-]. split; [done|]. by eapply Htidy.
Qed.

Lemma emit_tidy (channel : string) (args : Args) (w : World) :
  tidy w → tidy (emit channel args w).
Proof.
  unfold emit. generalize (listeners w channel) as ls. intros ls.
  revert w. induction ls as [|l ls IH]; intros w Htidy; [done|].
  simpl. apply IH. unfold fire.
  destruct (once_wrapper l); [|done]. by apply removeListener_tidy.
Qed.

Lemma addListener_tidy (channel : string) (l : Listener) (w : World) :
  channel ∈ channel_names → tidy w → tidy (addListener channel l w).
Proof.
  intros Hin Htidy ch ls. unfold addListener. simpl. rewrite lookup_insert.
  case_decide as Hch; [|apply Htidy]. subst ch. intros [= <-].
  split; [|done]. by destruct (listeners w channel).
Qed.

Lemma step_tidy (w : World) (e : Event) :
  registry w = ALLOWED_CHANNELS → tidy w → tidy (step w e).
Proof.
  intros Hreg Htidy.
  destruct e as [ch args|ch args|ch cb|ch cb|ch f| | | |ch args]; simpl;
    unfold send, invoke, on, once, unsubscribe, getVersion, getCwd, getEnv;
    rewrite ?(isChannelAllowed_registry w) by done; try done.
  1-4: case_bool_decide; simpl; try done.
  - by apply addListener_tidy.
  - by apply addListener_tidy.
  - simpl. by apply removeListener_tidy.
  - by apply emit_tidy.
Qed.

Lemma run_tidy (w : World) (es : list Event) :
  registry w = ALLOWED_CHANNELS → tidy w → tidy (run w es).
Proof.
  revert w. induction es as [|e es IH]; intros w Hreg Htidy; [done|].
  simpl. apply IH; [by rewrite step_registry | by apply step_tidy].
Qed.

(** X4: in every execution the listener table has keys only among the
    enumerated channels and holds no empty array (a channel whose last
    listener goes is dropped). So a message that the main process sends
    on any other channel reaches no callback and changes nothing. *)
Theorem listener_table_is_tidy (es : list Event) :
  tidy (run initial es)
  ∧ (∀ channel, channel ∉ channel_names → listeners (run initial es) channel = [])
  ∧ (∀ channel args, channel ∉ channel_names →
       emit channel args (run initial es) = run initial es).
Proof.
  assert (tidy (run initial es)) as Htidy.
  { apply run_tidy; [done|]. intros ch ls. simpl. by rewrite lookup_empty. }
  assert (∀ channel, channel ∉ channel_names →
            listeners (run initial es) channel = []) as Hnone.
  { intros channel Hout. unfold listeners.
    destruct (_events (run initial es) !! channel) as [ls|] eqn:Hls; [|done].
    by destruct (Htidy channel ls Hls). }
  split; [done|]. split; [done|].
  intros channel args Hout. unfold emit. by rewrite Hnone.
Qed.

(** *** Unsubscribing *)

Lemma remove_last_absent (f : nat) (ls : list Listener) :
  f ∉ fn <$> ls → remove_last f ls = ls.
Proof.
  induction ls as [|l ls IH]; [done|].
  rewrite fmap_cons, not_elem_of_cons. intros [Hne Hnin]. simpl.
  destruct (existsb _ ls) eqn:Hex; [by apply existsb_fn_true in Hex|].
  by rewrite bool_decide_eq_false_2.
Qed.

Lemma listeners_unsubscribe (channel ch : string) (f : nat) (w : World) :
  listeners (unsubscribe channel f w).2 ch
  = if decide (channel = ch) then remove_last f (listeners w channel)
    else listeners w ch.
Proof. unfold unsubscribe. simpl. by rewrite listeners_removeListener. Qed.

(** X5: calling an unsubscribe closure whose listener is not listed (it
    was removed before, or its channel has no listeners at all) leaves
    every listener array as it is, and calling a closure a second time
    changes nothing more than the first call did. Each call still reaches
    [ipcRenderer.removeListener]. *)
Theorem unsubscribe_twice (es : list Event) (channel : string) (f : nat) :
  (f ∉ fn <$> listeners (run initial es) channel →
     ∀ ch, listeners (unsubscribe channel f (run initial es)).2 ch
           = listeners (run initial es) ch)
  ∧ (∀ ch, listeners
             (unsubscribe channel f
                (unsubscribe channel f (run initial es)).2).2 ch
           = listeners (unsubscribe channel f (run initial es)).2 ch)
  ∧ ipc_calls (unsubscribe channel f (run initial es)).2
    = ipc_calls (run initial es) ++ [ipc_removeListener channel f].
Proof.
  split; [|split].
  - intros Hnin ch. rewrite listeners_unsubscribe.
    case_decide as Hch; [|done]. subst ch. by apply remove_last_absent.
  - intros ch. rewrite !listeners_unsubscribe.
    destruct (decide (channel = ch)) as [<-|Hch]; [|done].
    case_decide; [|done].
    destruct (reachable_well_formed es) as (Hnd & _).
    apply remove_last_absent. rewrite remove_last_filter by done.
    intros (l & Hf & Hl)%list_elem_of_fmap.
    apply list_elem_of_filter in Hl as [Hne _]. by apply Hne.
  - unfold unsubscribe. simpl.
    by destruct (removeListener_frame channel f
                   (log_ipc (ipc_removeListener channel f) (run initial es)))
      as (_ & _ & -> & _).
Qed.

(** *** The order of callbacks *)

Lemma sublist_StronglySorted (l1 l2 : list nat) :
  l1 `sublist_of` l2 → StronglySorted lt l2 → StronglySorted lt l1.
Proof.
  induction 1 as [|x l1 l2 Hsub IH|x l1 l2 Hsub IH]; [done| |].
  - rewrite !StronglySorted_cons. intros [Hall Hsorted]. split; [|by apply IH].
    rewrite Forall_forall in Hall. apply Forall_forall. intros y Hy.
    apply Hall. by eapply elem_of_sublist.
  - rewrite StronglySorted_cons. intros [_ Hsorted]. by apply IH.
Qed.

Lemma step_sorted (w : World) (e : Event) :
  well_formed w →
  (∀ channel, StronglySorted lt (fn <$> listeners w channel)) →
  ∀ channel, StronglySorted lt (fn <$> listeners (step w e) channel).
Proof.
  intros (_ & Hlt & _) Hsorted channel.
  destruct (step_listeners w e channel) as [Hsub | (l & -> & Hl & _)].
  - eapply sublist_StronglySorted; [by apply fmap_sublist | apply Hsorted].
  - rewrite fmap_app. apply StronglySorted_app. split; [|split].
    + intros x y (l' & -> & Hin)%list_elem_of_fmap Hy.
      apply list_elem_of_singleton in Hy. subst y. apply Hlt in Hin. lia.
    + apply Hsorted.
    + repeat constructor.
Qed.

Lemma run_sorted (es : list Event) (channel : string) :
  StronglySorted lt (fn <$> listeners (run initial es) channel).
Proof.
  assert (∀ w, well_formed w →
            (∀ ch, StronglySorted lt (fn <$> listeners w ch)) →
            ∀ ch, StronglySorted lt (fn <$> listeners (run w es) ch)) as Hrun.
  { induction es as [|e es IH]; intros w Hwf Hsorted; [done|].
    simpl. apply IH; [by apply step_well_formed | by apply step_sorted]. }
  apply Hrun; [apply initial_well_formed|].
  intros ch. unfold listeners. simpl. rewrite lookup_empty. constructor.
Qed.

(** X6: a message from the main process calls the callbacks of all
    listeners its channel has at that moment, each once and with the
    arguments of the message (the event object is dropped), in the order
    in which the listeners were registered: every channel's array is in
    the order of creation of its closures. *)
Theorem delivery_calls_in_registration_order
    (es : list Event) (channel : string) (args : Args) :
  invocations (emit channel args (run initial es))
  = invocations (run initial es)
    ++ ((λ l, (fn l, callback l, args)) <$> listeners (run initial es) channel)
  ∧ StronglySorted lt (fn <$> listeners (run initial es) channel)
  ∧ listeners (emit channel args (run initial es)) channel
    = filter (λ l, once_wrapper l = false) (listeners (run initial es) channel).
Proof.
  split; [apply invocations_emit|]. split; [apply run_sorted|].
  rewrite listeners_emit by apply reachable_well_formed.
  by rewrite decide_True.
Qed.

(** *** Subscriptions over time *)

Lemma invocations_of_emit (f : nat) (channel : string) (args : Args) (w : World) :
  invocations_of f (emit channel args w)
  = invocations_of f w
    ++ ((λ l, (fn l, callback l, args))
          <$> filter (λ l, fn l = f) (listeners w channel)).
Proof.
  unfold invocations_of. rewrite invocations_emit, filter_app. f_equal.
  induction (listeners w channel) as [|l ls IH]; [done|].
  rewrite fmap_cons, !filter_cons. simpl.
  destruct (decide (fn l = f)); [rewrite fmap_cons|]; by rewrite IH.
Qed.

Lemma filter_sole (f : nat) (channel ch : string) (mine : Listener) (w : World) :
  well_formed w → fn mine = f → sole_listener f channel mine w →
  mine ∈ listeners w channel →
  filter (λ l, fn l = f) (listeners w ch)
  = if decide (ch = channel) then [mine] else [].
Proof.
  intros (Hnd & _) Hf Hsole Hin. case_decide as Hch.
  - subst ch. specialize (Hnd channel).
    apply list_elem_of_split in Hin as (k & q & Heq). rewrite Heq in Hnd |- *.
    rewrite fmap_app, fmap_cons, Hf in Hnd.
    apply NoDup_app in Hnd as (_ & Hk & Hq). apply NoDup_cons in Hq as [Hq _].
    rewrite filter_app, filter_cons_True by done.
    assert (∀ ls, f ∉ fn <$> ls → filter (λ l, fn l = f) ls = []) as Hnone.
    { intros ls Hls. induction ls as [|l ls IH]; [done|].
      rewrite fmap_cons, not_elem_of_cons in Hls. destruct Hls as [? ?].
      rewrite filter_cons_False by done. by apply IH. }
    rewrite !Hnone; [done | done |].
    intros Hfk. apply (Hk f Hfk). by left.
  - destruct (filter _ _) as [|l ls] eqn:Hfilter; [done|].
    assert (l ∈ filter (λ l, fn l = f) (listeners w ch)) as Hl
      by (rewrite Hfilter; by left).
    apply list_elem_of_filter in Hl as [Hfn Hl].
    by destruct (Hsole ch l Hl Hfn).
Qed.

Lemma step_keeps_listed (channel : string) (l : Listener) (w : World) (e : Event) :
  well_formed w → l ∈ listeners w channel →
  keeps channel (fn l) [e] = true →
  once_wrapper l = false ∨ deliveries channel [e] = [] →
  l ∈ listeners (step w e) channel.
Proof.
  intros Hwf Hin Hkeeps Hstays. pose proof Hwf as (Hnd & _).
  simpl in Hkeeps, Hstays. rewrite andb_true_r in Hkeeps.
  destruct e as [ch args|ch args|ch cb|ch cb|ch g| | | |ch args]; simpl;
    unfold send, invoke, on, once, getVersion, getCwd, getEnv; try done.
  - by destruct (negb (isChannelAllowed w ch)).
  - by destruct (negb (isChannelAllowed w ch)).
  - destruct (negb (isChannelAllowed w ch)); [done|]. simpl.
    rewrite listeners_addListener. case_decide; [|done]. subst ch.
    apply elem_of_app. by left.
  - destruct (negb (isChannelAllowed w ch)); [done|]. simpl.
    rewrite listeners_addListener. case_decide; [|done]. subst ch.
    apply elem_of_app. by left.
  - rewrite listeners_removeListener.
    change (listeners (log_ipc ?c w)) with (listeners w).
    case_decide as Hch; [|done]. subst ch.
    rewrite remove_last_filter by done. apply list_elem_of_filter.
    split; [|done]. intros Hg. apply negb_true_iff, bool_decide_eq_false in Hkeeps.
    apply Hkeeps. by split.
  - rewrite listeners_emit by done. case_decide as Hch; [|done]. subst ch.
    apply list_elem_of_filter. split; [|done].
    destruct Hstays as [?|Hnone]; [done|].
    by rewrite bool_decide_eq_true_2 in Hnone.
Qed.

(** A listed closure is called once for each message on its channel, as
    long as it stays listed. *)
Lemma run_listed (f : nat) (channel : string) (mine : Listener)
    (later : list Event) (w : World) :
  well_formed w → f < next_fn w → fn mine = f →
  sole_listener f channel mine w → mine ∈ listeners w channel →
  keeps channel f later = true →
  once_wrapper mine = false ∨ deliveries channel later = [] →
  invocations_of f (run w later)
  = invocations_of f w
    ++ ((λ args, (f, callback mine, args)) <$> deliveries channel later)
  ∧ mine ∈ listeners (run w later) channel
  ∧ well_formed (run w later) ∧ f < next_fn (run w later)
  ∧ sole_listener f channel mine (run w later).
Proof.
  revert w. induction later as [|e later IH];
    intros w Hwf Hf Hmine Hsole Hin Hkeeps Hstays.
  - simpl. by rewrite app_nil_r.
  - assert (keeps channel f [e] = true ∧ keeps channel f later = true)
      as [Hke Hkl].
    { unfold keeps in *. simpl in *. rewrite andb_true_r.
      by apply andb_true_iff in Hkeeps. }
    assert ((once_wrapper mine = false ∨ deliveries channel [e] = [])
            ∧ (once_wrapper mine = false ∨ deliveries channel later = []))
      as [Hse Hsl].
    { destruct Hstays as [?|Hnone]; [by split; left|].
      simpl in *. destruct e; try (by split; right).
      case_bool_decide; [done | by split; right]. }
    pose proof (step_next_fn w e) as Hmono.
    simpl. destruct (IH (step w e)) as (-> & Hrest); try done.
    + by apply step_well_formed.
    + lia.
    + by apply step_sole_listener.
    + apply step_keeps_listed; try done. by rewrite Hmine.
    + split; [|done].
      assert ((∀ ch args, e ≠ deliver ch args) →
                invocations_of f (step w e) = invocations_of f w) as Hquiet.
      { intros Hne. unfold invocations_of.
        destruct (step_invocations w e) as [(ch & args & ->) | ->]; [|done].
        by destruct (Hne ch args). }
      destruct e as [ch args|ch args|ch cb|ch cb|ch g| | | |ch args];
        try (by rewrite Hquiet).
      simpl. rewrite invocations_of_emit.
      rewrite (filter_sole f channel ch mine) by done.
      case_decide as Hch; case_bool_decide; try done.
      * rewrite fmap_cons, <- app_assoc. simpl. by rewrite Hmine.
      * by rewrite app_nil_r.
Qed.

(** A closure that is listed nowhere is never called again. *)
Lemma run_unlisted (f : nat) (later : list Event) (w : World) :
  well_formed w → f < next_fn w →
  (∀ ch, f ∉ fn <$> listeners w ch) →
  invocations_of f (run w later) = invocations_of f w
  ∧ (∀ ch, f ∉ fn <$> listeners (run w later) ch).
Proof.
  revert w. induction later as [|e later IH]; intros w Hwf Hf Hnone; [done|].
  pose proof (step_next_fn w e) as Hmono.
  assert (∀ ch, f ∉ fn <$> listeners (step w e) ch) as Hnone'.
  { intros ch (l & Hl & Hin)%list_elem_of_fmap.
    destruct (step_listeners w e ch) as [Hsub | (new & Heq & Hnew & _)].
    - apply (Hnone ch). apply list_elem_of_fmap. exists l.
      split; [done | by eapply elem_of_sublist].
    - rewrite Heq in Hin. apply elem_of_app in Hin as [Hin | Hin].
      + apply (Hnone ch). apply list_elem_of_fmap. by exists l.
      + apply list_elem_of_singleton in Hin. subst l. lia. }
  simpl. destruct (IH (step w e)) as [-> Hrest];
    [by apply step_well_formed | lia | done |].
  split; [|done].
  destruct (step_invocations w e) as [(ch & args & ->) | Hsame];
    [|unfold invocations_of; by rewrite Hsame].
  simpl. rewrite invocations_of_emit.
  destruct (filter _ (listeners w ch)) as [|l ls] eqn:Hfilter;
    [by rewrite app_nil_r|].
  assert (l ∈ filter (λ l, fn l = f) (listeners w ch)) as Hl
    by (rewrite Hfilter; by left).
  apply list_elem_of_filter in Hl as [Hfn Hl].
  destruct (Hnone ch). apply list_elem_of_fmap. by exists l.
Qed.

Lemma fresh_not_invoked (es : list Event) :
  invocations_of (next_fn (run initial es)) (run initial es) = [].
Proof.
  unfold invocations_of.
  destruct (filter _ _) as [|i rest] eqn:Hfilter; [done|].
  assert (i ∈ filter (λ i, i.1.1 = next_fn (run initial es))
                (invocations (run initial es))) as Hi
    by (rewrite Hfilter; by left).
  apply list_elem_of_filter in Hi as [Heq Hi].
  destruct (reachable_well_formed es) as (_ & _ & Hold).
  apply Hold in Hi. lia.
Qed.

(** What [on] and [once] set up on a registered channel. *)
Lemma subscribed (es : list Event) (channel : string) (once : bool)
    (cb : Callback) :
  channel ∈ channel_names →
  let w := run initial es in
  let mine := {| fn := next_fn w; once_wrapper := once; callback := cb |} in
  let w1 := step w (if once then call_once channel cb else call_on channel cb) in
  well_formed w1 ∧ next_fn w < next_fn w1
  ∧ sole_listener (next_fn w) channel mine w1
  ∧ mine ∈ listeners w1 channel
  ∧ invocations_of (next_fn w) w1 = [].
Proof.
  intros Hin w mine w1.
  pose proof (reachable_well_formed es) as Hwf. fold w in Hwf.
  assert (w1 = addListener channel mine
                 (log_ipc (if once then ipc_once channel (next_fn w)
                           else ipc_on channel (next_fn w)) (fresh_fn w)))
    as Hw1.
  { unfold w1. destruct once; simpl; unfold Bridge.once, on;
      unfold w; by rewrite run_isChannelAllowed, bool_decide_eq_true_2. }
  split; [by apply step_well_formed|].
  split; [rewrite Hw1; simpl; lia|].
  split.
  { apply appended_sole_listener; [done..|].
    intros ch. rewrite Hw1, listeners_addListener. reflexivity. }
  split.
  { rewrite Hw1, listeners_addListener, decide_True by done.
    apply elem_of_app. right. by left. }
  rewrite Hw1. apply fresh_not_invoked.
Qed.

(** X7: a listener registered by [on] on an enumerated channel is durable:
    as long as its unsubscribe closure is not called it stays listed, and
    its callback has been called exactly once for every message the main
    process sent on that channel since, in the order of the messages and
    with their arguments; messages on other channels never reach it. *)
Theorem on_listener_called_for_every_message
    (es later : list Event) (channel : string) (cb : Callback) :
  channel ∈ channel_names →
  keeps channel (next_fn (run initial es)) later = true →
  let f := next_fn (run initial es) in
  let w2 := run (on channel cb (run initial es)).2 later in
  invocations_of f w2 = (λ args, (f, cb, args)) <$> deliveries channel later
  ∧ {| fn := f; once_wrapper := false; callback := cb |} ∈ listeners w2 channel.
Proof.
  intros Hin Hkeeps f w2.
  destruct (subscribed es channel false cb Hin) as (Hwf & Hf & Hsole & Hl & Hinv).
  destruct (run_listed f channel
              {| fn := f; once_wrapper := false; callback := cb |} later
              (on channel cb (run initial es)).2) as (Hcalls & Hlisted & _);
    try done; [by left|].
  split; [|done]. unfold w2. rewrite Hcalls.
  by replace (invocations_of f (on channel cb (run initial es)).2)
    with (@nil (nat * Callback * Args)).
Qed.

Lemma on_listener_messages_witness :
  "terminal:data" ∈ channel_names
  ∧ keeps "terminal:data" 0
      [deliver "terminal:data" [JSString "a"]; deliver "terminal:exit" [];
       call_unsubscribe "terminal:exit" 0;
       deliver "terminal:data" [JSString "b"]] = true
  ∧ invocations_of 0
      (run (on "terminal:data" 7 (run initial [])).2
         [deliver "terminal:data" [JSString "a"]; deliver "terminal:exit" [];
          call_unsubscribe "terminal:exit" 0;
          deliver "terminal:data" [JSString "b"]])
    = [(0, 7, [JSString "a"]); (0, 7, [JSString "b"])].
Proof.
  assert ("terminal:data" ∈ channel_names) as Hin
    by (apply (bool_decide_unpack _); by vm_compute).
  split; [exact Hin|]. split; [reflexivity|].
  exact (proj1 (on_listener_called_for_every_message []
                  [deliver "terminal:data" [JSString "a"];
                   deliver "terminal:exit" [];
                   call_unsubscribe "terminal:exit" 0;
                   deliver "terminal:data" [JSString "b"]]
                  "terminal:data" 7 Hin eq_refl)).
Defined.

(** X8: no delivery that starts after the closure returned by [on] was
    called reaches the callback. The calls made through the subscription
    are those of the deliveries that started before ([between]; a
    delivery that was running when the closure was called is one of
    them and still makes its call); whatever is delivered or registered
    afterwards ([later]) adds none, and the listener is listed on no
    channel. *)
Theorem unsubscribed_listener_is_silent
    (es between later : list Event) (channel : string) (cb : Callback) :
  channel ∈ channel_names →
  let f := next_fn (run initial es) in
  let w2 := run (on channel cb (run initial es)).2 between in
  let w3 := (unsubscribe channel f w2).2 in
  invocations_of f (run w3 later) = invocations_of f w2
  ∧ (∀ ch, f ∉ fn <$> listeners (run w3 later) ch).
Proof.
  intros Hin f w2 w3.
  destruct (subscribed es channel false cb Hin) as (Hwf & Hf & Hsole & _ & _).
  fold f in Hf, Hsole.
  assert (well_formed w2) as Hwf2 by by apply run_well_formed.
  assert (sole_listener f channel
            {| fn := f; once_wrapper := false; callback := cb |} w2) as Hsole2
    by by apply run_sole_listener.
  pose proof (run_next_fn (on channel cb (run initial es)).2 between) as Hmono.
  fold w2 in Hmono.
  assert (invocations_of f w3 = invocations_of f w2) as Hsame.
  { unfold w3, unsubscribe, invocations_of. simpl.
    by destruct (removeListener_frame channel f
                   (log_ipc (ipc_removeListener channel f) w2))
      as (_ & _ & _ & ->). }
  rewrite <- Hsame. apply run_unlisted.
  - by apply (step_well_formed w2 (call_unsubscribe channel f)).
  - assert (next_fn w2 ≤ next_fn w3) as Hstep
      by exact (step_next_fn w2 (call_unsubscribe channel f)).
    assert (f < next_fn (on channel cb (run initial es)).2) as Hf' by exact Hf.
    change (f < next_fn w3). lia.
  - intros ch (l & Hl & Hlisted)%list_elem_of_fmap.
    unfold w3 in Hlisted. rewrite listeners_unsubscribe in Hlisted.
    destruct Hwf2 as (Hnd & _).
    case_decide as Hch.
    + subst ch. rewrite remove_last_filter in Hlisted by done.
      apply list_elem_of_filter in Hlisted as [Hne _]. by apply Hne.
    + symmetry in Hl. by destruct (Hsole2 ch l Hlisted Hl).
Qed.

Lemma unsubscribed_listener_witness :
  "terminal:data" ∈ channel_names
  ∧ invocations_of 0
      (run (unsubscribe "terminal:data" 0
              (run (on "terminal:data" 7 (run initial [])).2
                 [deliver "terminal:data" [JSString "a"]])).2
         [deliver "terminal:data" [JSString "b"]])
    = [(0, 7, [JSString "a"])].
Proof.
  assert ("terminal:data" ∈ channel_names) as Hin
    by (apply (bool_decide_unpack _); by vm_compute).
  split; [exact Hin|].
  etrans; [exact (proj1 (unsubscribed_listener_is_silent []
                           [deliver "terminal:data" [JSString "a"]]
                           [deliver "terminal:data" [JSString "b"]]
                           "terminal:data" 7 Hin))|].
  by vm_compute.
Defined.

(** X9: a listener registered by [once] on an enumerated channel waits
    through every event that is not a message on its channel; the first
    message on its channel calls the callback with the arguments of that
    message, and whatever follows, that call stays the only one and the
    listener is listed nowhere. *)
Theorem once_listener_called_on_first_message
    (es before after : list Event) (channel : string) (cb : Callback)
    (args : Args) :
  channel ∈ channel_names →
  keeps channel (next_fn (run initial es)) before = true →
  deliveries channel before = [] →
  let f := next_fn (run initial es) in
  let w2 := run (once channel cb (run initial es)).2 before in
  (invocations_of f w2 = []
   ∧ {| fn := f; once_wrapper := true; callback := cb |} ∈ listeners w2 channel)
  ∧ invocations_of f (run w2 (deliver channel args :: after)) = [(f, cb, args)]
  ∧ (∀ ch, f ∉ fn <$> listeners (run w2 (deliver channel args :: after)) ch).
Proof.
  intros Hin Hkeeps Hnone f w2.
  set (mine := {| fn := f; once_wrapper := true; callback := cb |}).
  destruct (subscribed es channel true cb Hin) as (Hwf & Hf & Hsole & Hl & Hinv).
  destruct (run_listed f channel mine before
              (once channel cb (run initial es)).2)
    as (Hcalls & Hlisted & Hwf2 & Hf2 & Hsole2); try done; [by right|].
  fold w2 in Hcalls, Hlisted, Hwf2, Hf2, Hsole2.
  replace (invocations_of f (once channel cb (run initial es)).2)
    with (@nil (nat * Callback * Args)) in Hcalls by (symmetry; exact Hinv).
  rewrite Hnone in Hcalls. simpl in Hcalls.
  split; [done|]. simpl.
  assert (invocations_of f (emit channel args w2) = [(f, cb, args)]) as Hfirst.
  { rewrite invocations_of_emit, Hcalls.
    rewrite (filter_sole f channel channel mine) by done.
    by rewrite decide_True. }
  rewrite <- Hfirst. apply run_unlisted.
  - by apply (step_well_formed w2 (deliver channel args)).
  - by destruct (emit_frame channel args w2) as (_ & -> & _).
  - intros ch (l & Hfn & Hlisted')%list_elem_of_fmap.
    rewrite listeners_emit in Hlisted' by done. symmetry in Hfn.
    case_decide as Hch.
    + subst ch. apply list_elem_of_filter in Hlisted' as [Hnot Hlisted'].
      destruct (Hsole2 channel l Hlisted' Hfn) as [_ ->]. done.
    + by destruct (Hsole2 ch l Hlisted' Hfn).
Qed.

Lemma once_listener_first_message_witness :
  "terminal:exit" ∈ channel_names
  ∧ invocations_of 0
      (run (run (once "terminal:exit" 5 (run initial [])).2
              [deliver "terminal:data" [JSString "x"]])
         [deliver "terminal:exit" [JSNumber 1];
          deliver "terminal:exit" [JSNumber 2]])
    = [(0, 5, [JSNumber 1])].
Proof.
  assert ("terminal:exit" ∈ channel_names) as Hin
    by (apply (bool_decide_unpack _); by vm_compute).
  split; [exact Hin|].
  exact (proj1 (proj2 (once_listener_called_on_first_message []
                         [deliver "terminal:data" [JSString "x"]]
                         [deliver "terminal:exit" [JSNumber 2]]
                         "terminal:exit" 5 [JSNumber 1] Hin eq_refl eq_refl))).
Defined.

End BridgeExtras.

Module GatewayExtras.
Import Gateway GatewayTheory.

(** *** The accept-time check *)

Lemma prefix_app (a b s : string) :
  String.prefix (a +:+ b) s = true → String.prefix a s = true.
Proof.
  revert s. induction a as [|c a IH]; intros s; [by destruct s|].
  destruct s as [|c' s]; [done|]. simpl.
  destruct (ascii_dec c c'); [apply IH | done].
Qed.

Lemma port_entries_add_nothing (p : N) (origin : string) :
  existsb (λ allowedOrigin, startsWith origin allowedOrigin) (allowedOrigins p)
  = existsb (λ allowedOrigin, startsWith origin allowedOrigin) portless_origins.
Proof.
  unfold allowedOrigins, portless_origins, startsWith.
  cbn [existsb].
  destruct (String.prefix "http://localhost" origin) eqn:H1; [done|].
  destruct (String.prefix "http://127.0.0.1" origin) eqn:H2; [done|].
  destruct (String.prefix "https://localhost" origin) eqn:H3; [done|].
  destruct (String.prefix "https://127.0.0.1" origin) eqn:H4; [done|].
  cbn [orb].
  destruct (String.prefix ("http://localhost:" +:+ _) origin) eqn:H5.
  { apply (prefix_app "http://localhost") in H5. congruence. }
  destruct (String.prefix ("http://127.0.0.1:" +:+ _) origin) eqn:H6.
  { apply (prefix_app "http://127.0.0.1") in H6. congruence. }
  destruct (String.prefix ("https://localhost:" +:+ _) origin) eqn:H7.
  { apply (prefix_app "https://localhost") in H7. congruence. }
  destruct (String.prefix ("https://127.0.0.1:" +:+ _) origin) eqn:H8.
  { apply (prefix_app "https://127.0.0.1") in H8. congruence. }
  done.
Qed.

(** X10: the answer of [verifyClient] depends only on the origin and the
    host of the attempt. Neither the sockets in [wss.clients] nor the
    listener's port play a part: the guard on [clients.length] is never
    taken, and the four allowlist entries that carry the port begin with
    entries that do not, so an origin is accepted exactly when it begins
    with one of the six port-free entries. *)
Theorem verifyClient_ignores_the_port (s : Server) (info : Info) (origin : string) :
  (verifyClient s info).1 = (verifyClient (start 0 "") info).1
  ∧ (verifyClient s
       {| info_origin := Some origin; headers_origin := None;
          headers_host := None |}).1
    = bool_decide (origin ≠ "")
      && existsb (λ allowedOrigin, startsWith origin allowedOrigin)
           portless_origins.
Proof.
  split.
  - unfold verifyClient. cbn [clients_length js_ge].
    by rewrite !port_entries_add_nothing.
  - unfold verifyClient. cbn [clients_length js_ge].
    rewrite !port_entries_add_nothing.
    cbn [info_origin headers_origin headers_host].
    destruct (decide (origin = "")) as [->|Hne]; [reflexivity|].
    unfold truthy. rewrite !(bool_decide_eq_true_2 (origin ≠ "")) by done.
    reflexivity.
Qed.

(** X12: empty strings count as absent. An empty [info.origin] falls
    through to the origin header, an empty origin altogether to the host
    rule, and an empty or absent host is refused. A non-empty
    [info.origin] is the one that counts, whatever the header says. *)
Theorem verifyClient_empty_values
    (s : Server) (a : ascii) (origin : string) (ho ho' h : option string) :
  verifyClient s {| info_origin := Some ""; headers_origin := ho; headers_host := h |}
  = verifyClient s {| info_origin := None; headers_origin := ho; headers_host := h |}
  ∧ verifyClient s {| info_origin := None; headers_origin := Some ""; headers_host := h |}
    = verifyClient s {| info_origin := None; headers_origin := None; headers_host := h |}
  ∧ verifyClient s {| info_origin := None; headers_origin := None; headers_host := Some "" |}
    = (false, [])
  ∧ verifyClient s {| info_origin := None; headers_origin := None; headers_host := None |}
    = (false, [])
  ∧ verifyClient s {| info_origin := Some (String a origin); headers_origin := ho;
                      headers_host := h |}
    = verifyClient s {| info_origin := Some (String a origin); headers_origin := ho';
                        headers_host := None |}.
Proof.
  unfold verifyClient. simpl.
  repeat split; try done.
Qed.

(** *** Closing *)

Lemma receive_used_up (token : string) (p : Parse) (c : Conn) :
  first_message_pending c = false → receive token p c = c.
Proof. intros Hfp. unfold receive. by rewrite Hfp. Qed.

Lemma receive_uses_up (token : string) (p : Parse) (c : Conn) :
  first_message_pending (receive token p c) = false.
Proof.
  unfold receive. destruct (first_message_pending c) eqn:Hfp; [|done].
  unfold on_message. destruct p as [|data]; [done|].
  destruct (get_authToken data) as [v|]; [|done].
  by destruct (strict_eq_string v token).
Qed.

Lemma step_closed (s : Server) (e : Event) (id : nat) (c : Conn)
    (cause : CloseCause) :
  id < length (conns s) →
  (∀ i, i ∈ clients s → i < length (conns s)) →
  conns s !! id = Some c → closed c = Some cause →
  ∃ c', conns (step s e) !! id = Some c' ∧ closed c' = Some cause
        ∧ (settled s id c →
             settled (step s e) id c'
             ∧ authenticated c' = authenticated c
             ∧ first_message_pending c' = first_message_pending c).
Proof.
  intros Hid Hbound Hc Hcause. destruct e as [info|id' p|ms|id']; simpl.
  - exists c. split; [by apply accept_keeps|]. split; [done|].
    intros Hsettled. split; [|done]. destruct Hsettled as [? | Hout]; [by left|].
    right. unfold accept. destruct (verifyClient s info) as [[] ?]; [|done].
    simpl. intros [->%elem_of_singleton | ?]%elem_of_union; [lia | done].
  - case_bool_decide as Hin; [simpl | by exists c].
    destruct (decide (id' = id)) as [->|Hne];
      [|rewrite list_lookup_alter_ne by done; by exists c].
    rewrite list_lookup_alter_eq, Hc. simpl. eexists. split; [done|].
    split; [by apply receive_closed|].
    intros [Hfp | Hout]; [|done]. rewrite receive_used_up by done.
    split; [by left | done].
  - rewrite list_lookup_fmap, Hc. simpl. eexists. split; [done|].
    destruct (tick_closed (now s + ms) c cause Hcause) as (-> & -> & Hfp).
    split; [done|]. intros Hsettled. split; [|done].
    destruct Hsettled as [? | ?]; [left; congruence | by right].
  - destruct (decide (id' = id)) as [->|Hne].
    + rewrite list_lookup_alter_eq, Hc. simpl. eexists. split; [done|].
      simpl. rewrite Hcause. split; [done|]. intros _. split; [|done].
      right. simpl. intros [_ Hne]%elem_of_difference.
      by apply Hne, elem_of_singleton.
    + rewrite list_lookup_alter_ne by done. exists c. split; [done|].
      split; [done|]. intros Hsettled. split; [|done].
      destruct Hsettled as [? | Hout]; [by left|]. right. simpl.
      by intros [? _]%elem_of_difference.
Qed.

Lemma step_length (s : Server) (e : Event) :
  length (conns s) ≤ length (conns (step s e)).
Proof.
  destruct e as [info|id p|ms|id]; simpl.
  - unfold accept. destruct (verifyClient s info) as [[] ?]; simpl; [|done].
    rewrite length_app. lia.
  - case_bool_decide; [simpl | done]. by rewrite length_alter.
  - by rewrite length_fmap.
  - by rewrite length_alter.
Qed.

Lemma run_length (later : list Event) (s : Server) :
  length (conns s) ≤ length (conns (run s later)).
Proof.
  revert s. induction later as [|e later IH]; intros s; [done|].
  simpl. etrans; [apply (step_length s e) | apply IH].
Qed.

Lemma tracked_bound (s : Server) :
  consistent s → ∀ i, i ∈ clients s → i < length (conns s).
Proof.
  intros (Htracked & _) i Hin. destruct (Htracked i Hin) as (c & Hc & _).
  by eapply lookup_lt_Some.
Qed.

Lemma run_closed (later : list Event) (s : Server) (id : nat) (c : Conn)
    (cause : CloseCause) :
  consistent s → conns s !! id = Some c → closed c = Some cause →
  ∃ c', conns (run s later) !! id = Some c' ∧ closed c' = Some cause
        ∧ (settled s id c →
             authenticated c' = authenticated c
             ∧ first_message_pending c' = first_message_pending c).
Proof.
  revert s c. induction later as [|e later IH]; intros s c Hcons Hc Hcause;
    [by eauto|].
  destruct (step_closed s e id c cause) as (c1 & Hc1 & Hcause1 & Hkeep);
    [by eapply lookup_lt_Some | by apply tracked_bound | done | done |].
  destruct (IH (step s e) c1) as (c' & Hc' & Hcause' & Hsame);
    [by apply step_consistent | done | done |].
  exists c'. simpl. split; [done|]. split; [done|].
  intros Hsettled. destruct (Hkeep Hsettled) as (Hsettled1 & Ha1 & Hf1).
  destruct (Hsame Hsettled1) as [Ha' Hf']. split; congruence.
Qed.

(** X15: closing is final. Once a connection is closed, by the server
    with some code or by its peer, no later event reopens it or changes
    the cause recorded for it: a timer that runs later, a late message
    and a late ['close'] leave it closed as before. If its peer closed
    it, or its first message was handled already, nothing authenticates
    it any more either; only a socket the server closed on the deadline
    can still take a token. *)
Theorem closed_stays_closed
    (p : N) (token : string) (es later : list Event) (id : nat) (c : Conn)
    (cause : CloseCause) :
  conns (run (start p token) es) !! id = Some c →
  closed c = Some cause →
  ∃ c', conns (run (run (start p token) es) later) !! id = Some c'
        ∧ closed c' = Some cause
        ∧ conn_state c' = Closed
        ∧ (cause = by_peer ∨ first_message_pending c = false →
             authenticated c' = authenticated c
             ∧ first_message_pending c' = first_message_pending c).
Proof.
  intros Hc Hcause.
  pose proof (reachable_consistent p token es) as Hcons.
  destruct (run_closed later _ id c cause Hcons Hc Hcause)
    as (c' & Hc' & Hcause' & Hsame).
  exists c'. split; [done|]. split; [done|].
  split; [unfold conn_state; by rewrite Hcause'|].
  intros Hor. apply Hsame. destruct Hor as [-> | Hfp]; [right | by left].
  intros Hin. destruct Hcons as (Htracked & _).
  destruct (Htracked id Hin) as (c0 & Hc0 & Hpeer). congruence.
Qed.

Lemma closed_stays_closed_witness :
  ∃ c', conns
          (run (run (start 3000 "7f3a")
                  [attempt {| info_origin := None; headers_origin := None;
                              headers_host := Some "localhost:3000" |};
                   message 0 SyntaxError])
             [message 0 (Parsed (JSObject [("authToken", JSString "7f3a")]));
              elapse 5000; peer_close 0]) !! 0 = Some c'
        ∧ closed c' = Some (by_server 4400 "Invalid message format")
        ∧ conn_state c' = Closed
        ∧ authenticated c' = false.
Proof.
  destruct (closed_stays_closed 3000 "7f3a"
              [attempt {| info_origin := None; headers_origin := None;
                          headers_host := Some "localhost:3000" |};
               message 0 SyntaxError]
              [message 0 (Parsed (JSObject [("authToken", JSString "7f3a")]));
               elapse 5000; peer_close 0]
              0
              {| authenticated := false; first_message_pending := false;
                 authTimeout := Pending 5000; clearTimeout_calls := 0;
                 close_calls := [(4400%N, "Invalid message format")];
                 closed := Some (by_server 4400 "Invalid message format") |}
              (by_server 4400 "Invalid message format") eq_refl eq_refl)
    as (c' & Hc' & Hcause & Hstate & Hsame).
  exists c'. split; [exact Hc'|]. split; [exact Hcause|].
  split; [exact Hstate|]. exact (proj1 (Hsame (or_intror eq_refl))).
Defined.

Lemma ws_close_codes (code : N) (reason : string) (c : Conn) :
  (code, reason) ∈ close_codes → codes_ok c → codes_ok (ws_close code reason c).
Proof.
  intros Hin [Hcalls Hcause]. split; simpl.
  - apply Forall_app. split; [done|]. by constructor.
  - destruct (closed c) as [cause|]; [apply Hcause|]. by intros ?? [= <- <-].
Qed.

Lemma codes_4400 : (4400%N, "Invalid message format") ∈ close_codes.
Proof. apply (bool_decide_unpack _). by vm_compute. Qed.

Lemma codes_4401 : (4401%N, "Authentication timeout") ∈ close_codes.
Proof. apply (bool_decide_unpack _). by vm_compute. Qed.

Lemma codes_4403 : (4403%N, "Invalid auth token") ∈ close_codes.
Proof. apply (bool_decide_unpack _). by vm_compute. Qed.

Lemma step_codes (s : Server) (e : Event) :
  Forall codes_ok (conns s) → Forall codes_ok (conns (step s e)).
Proof.
  intros Hok. destruct e as [info|id p|ms|id]; simpl.
  - unfold accept. destruct (verifyClient s info) as [[] ?]; [|done].
    simpl. apply Forall_app. split; [done|]. constructor; [|done].
    split; [constructor | done].
  - case_bool_decide; [simpl | done].
    apply Forall_alter; [done|]. intros c _ Hc. unfold receive.
    destruct (first_message_pending c); [|done].
    assert (codes_ok (consume_first_message c)) as Hc' by done.
    unfold on_message. destruct p as [|data].
    + apply ws_close_codes; [apply codes_4400 | done].
    + destruct (get_authToken data) as [v|];
        [|apply ws_close_codes; [apply codes_4400 | done]].
      destruct (strict_eq_string v _); [done|].
      apply ws_close_codes; [apply codes_4403 | done].
  - apply Forall_fmap. eapply Forall_impl; [done|]. intros c Hc. simpl.
    unfold tick. destruct (authTimeout c); [|done..].
    case_bool_decide; [|done]. unfold on_timeout. simpl.
    destruct (authenticated c) eqn:Hauth; simpl; [done|].
    by apply (ws_close_codes 4401 "Authentication timeout"
                {| authenticated := authenticated c;
                   first_message_pending := first_message_pending c;
                   authTimeout := Fired;
                   clearTimeout_calls := clearTimeout_calls c;
                   close_calls := close_calls c; closed := closed c |});
      [apply codes_4401|].
  - apply Forall_alter; [done|]. intros c _ [Hcalls Hcause]. split; [done|].
    simpl. destruct (closed c); [apply Hcause | done].
Qed.

(** X16: the server closes sockets with three codes only. In every
    execution, each [ws.close] that was called on any connection, and the
    cause recorded for any connection the server closed, is 4401 with
    'Authentication timeout', 4403 with 'Invalid auth token' or 4400 with
    'Invalid message format'. *)
Theorem server_close_codes
    (p : N) (token : string) (es : list Event) (id : nat) (c : Conn) :
  conns (run (start p token) es) !! id = Some c →
  Forall (λ call, call ∈ close_codes) (close_calls c)
  ∧ (∀ code reason, closed c = Some (by_server code reason) →
                    (code, reason) ∈ close_codes).
Proof.
  assert (∀ es s, Forall codes_ok (conns s) →
                  Forall codes_ok (conns (run s es))) as Hrun.
  { clear. induction es as [|e es IH]; intros s Hs; [done|].
    simpl. by apply IH, step_codes. }
  intros Hc. specialize (Hrun es (start p token) (Forall_nil_2 _)).
  rewrite Forall_lookup in Hrun. exact (Hrun id c Hc).
Qed.

Lemma server_close_codes_witness :
  Forall (λ call, call ∈ close_codes)
    [(4403%N, "Invalid auth token"); (4401%N, "Authentication timeout")].
Proof.
  exact (proj1 (server_close_codes 3000 "7f3a"
                  [attempt {| info_origin := None; headers_origin := None;
                              headers_host := Some "localhost:3000" |};
                   message 0 (Parsed (JSObject [("authToken", JSString "0000")]));
                   elapse 5000]
                  0
                  {| authenticated := false; first_message_pending := false;
                     authTimeout := Fired; clearTimeout_calls := 0;
                     close_calls := [(4403%N, "Invalid auth token");
                                     (4401%N, "Authentication timeout")];
                     closed := Some (by_server 4403 "Invalid auth token") |}
                  eq_refl)).
Defined.

(** *** The handshake *)

Lemma receive_receive (token : string) (p q : Parse) (c : Conn) :
  receive token q (receive token p c) = receive token p c.
Proof. apply receive_used_up, receive_uses_up. Qed.

(** X17: only the first message of a connection is looked at by the
    authentication handler. A second message, whatever it holds, leaves
    the server exactly as the first message left it: a wrong token cannot
    be corrected on the same connection, and after a right token nothing
    sent later is taken for a token again. *)
Theorem only_the_first_message_counts (s : Server) (id : nat) (p q : Parse) :
  step (step s (message id p)) (message id q) = step s (message id p).
Proof.
  simpl. destruct (bool_decide (id ∈ clients s)) eqn:Hin; simpl;
    rewrite Hin; [|done].
  f_equal. rewrite list_alter_alter_eq. apply list_alter_ext; [|done].
  intros c _. simpl. apply receive_receive.
Qed.

Lemma step_authenticated_back (s : Server) (e : Event) (id : nat) (c1 : Conn) :
  conns (step s e) !! id = Some c1 → authenticated c1 = true →
  (∃ c, conns s !! id = Some c ∧ authenticated c = true)
  ∨ ∃ data, e = message id (Parsed data)
            ∧ get_authToken data = Some (JSString (wsAuthToken s)).
Proof.
  intros Hc1 Hauth. destruct e as [info|id' p|ms|id']; simpl in Hc1.
  - left. unfold accept in Hc1.
    destruct (verifyClient s info) as [[] ?]; simpl in Hc1; [|by eauto].
    apply lookup_app_Some in Hc1 as [Hc1 | [_ Hc1]]; [by eauto|].
    apply list_lookup_singleton_Some in Hc1 as [_ <-]. done.
  - destruct (bool_decide (id' ∈ clients s)); simpl in Hc1; [|left; by eauto].
    destruct (decide (id' = id)) as [->|Hne];
      [|rewrite list_lookup_alter_ne in Hc1 by done; by eauto].
    rewrite list_lookup_alter_eq in Hc1.
    destruct (conns s !! id) as [c|] eqn:Hc; [|done].
    simpl in Hc1. injection Hc1 as <-.
    destruct (authenticated c) eqn:Hwas; [left; by eauto|]. right.
    unfold receive in Hauth.
    destruct (first_message_pending c); [|congruence].
    unfold on_message in Hauth. destruct p as [|data]; [simpl in Hauth; congruence|].
    destruct (get_authToken data) as [v|] eqn:Hv; [|simpl in Hauth; congruence].
    destruct (strict_eq_string v (wsAuthToken s)) eqn:Heq;
      [|simpl in Hauth; congruence].
    exists data. split; [done|]. rewrite Hv. f_equal.
    by apply strict_eq_string_true.
  - left. rewrite list_lookup_fmap in Hc1.
    destruct (conns s !! id) as [c|] eqn:Hc; [|done].
    simpl in Hc1. injection Hc1 as <-. exists c. split; [done|].
    unfold tick in Hauth. destruct (authTimeout c); [|done..].
    case_bool_decide; [|done]. unfold on_timeout in Hauth. simpl in Hauth.
    by destruct (authenticated c).
  - left. destruct (decide (id' = id)) as [->|Hne];
      [|rewrite list_lookup_alter_ne in Hc1 by done; by eauto].
    rewrite list_lookup_alter_eq in Hc1.
    destruct (conns s !! id) as [c|] eqn:Hc; [|done].
    simpl in Hc1. injection Hc1 as <-. by eauto.
Qed.

(** X18: no authentication without the token. A connection is
    authenticated only if the execution holds a message for it that
    parsed to a value whose [authToken] is the server's token. *)
Theorem authenticated_only_by_the_token
    (p : N) (token : string) (es : list Event) (id : nat) (c : Conn) :
  conns (run (start p token) es) !! id = Some c →
  authenticated c = true →
  ∃ data, message id (Parsed data) ∈ es
          ∧ get_authToken data = Some (JSString token).
Proof.
  assert (∀ es s c, wsAuthToken s = token →
            conns (run s es) !! id = Some c → authenticated c = true →
            (∃ c0, conns s !! id = Some c0 ∧ authenticated c0 = true)
            ∨ ∃ data, message id (Parsed data) ∈ es
                      ∧ get_authToken data = Some (JSString token)) as Hrun.
  { clear. induction es as [|e es IH]; intros s c Htoken Hc Hauth;
      [left; by eauto|].
    simpl in Hc. destruct (IH (step s e) c) as [(c1 & Hc1 & Hauth1) | Hlater];
      try done.
    - by destruct (step_constants s e) as (_ & -> & _).
    - destruct (step_authenticated_back s e id c1 Hc1 Hauth1)
        as [? | (data & -> & Hdata)]; [by left|].
      right. exists data. split; [by left | by rewrite <- Htoken].
    - right. destruct Hlater as (data & Hin & Hdata). exists data.
      split; [by right | done]. }
  intros Hc Hauth.
  destruct (Hrun es (start p token) c eq_refl Hc Hauth)
    as [(c0 & Hc0 & _) | ?]; [done | done].
Qed.

Lemma authenticated_only_by_the_token_witness :
  ∃ data,
    message 0 (Parsed data)
    ∈ [attempt {| info_origin := None; headers_origin := None;
                  headers_host := Some "localhost:3000" |};
       message 0 (Parsed (JSObject [("authToken", JSString "7f3a")]));
       message 0 SyntaxError]
    ∧ get_authToken data = Some (JSString "7f3a").
Proof.
  exact (authenticated_only_by_the_token 3000 "7f3a"
           [attempt {| info_origin := None; headers_origin := None;
                       headers_host := Some "localhost:3000" |};
            message 0 (Parsed (JSObject [("authToken", JSString "7f3a")]));
            message 0 SyntaxError]
           0
           {| authenticated := true; first_message_pending := false;
              authTimeout := Cleared; clearTimeout_calls := 1;
              close_calls := []; closed := None |}
           eq_refl eq_refl).
Defined.

(** *** The deadline *)

Lemma step_timely (s : Server) (e : Event) : timely s → timely (step s e).
Proof.
  unfold timely. intros Hs. destruct e as [info|id p|ms|id]; simpl.
  - unfold accept. destruct (verifyClient s info) as [[] ?]; [|done].
    simpl. apply Forall_app. split; [done|]. constructor; [|done].
    simpl. intros due [= <-]. unfold AUTH_TIMEOUT_MS. lia.
  - case_bool_decide; [simpl | done].
    apply Forall_alter; [done|]. intros c _ Hc due. unfold receive.
    destruct (first_message_pending c); [|apply Hc].
    unfold on_message. destruct p as [|data]; [apply Hc|].
    destruct (get_authToken data) as [v|]; [|apply Hc].
    destruct (strict_eq_string v _); [|apply Hc].
    simpl. by destruct (authTimeout c).
  - apply Forall_fmap. eapply Forall_impl; [done|]. intros c Hc due. simpl.
    unfold tick. destruct (authTimeout c) as [d| |] eqn:Ht;
      [|by rewrite Ht..].
    case_bool_decide as Hdue.
    + unfold on_timeout. simpl. by destruct (authenticated c).
    + rewrite Ht. intros [= <-]. specialize (Hc d Ht). unfold AUTH_TIMEOUT_MS in *. lia.
  - apply Forall_alter; [done|]. intros c _ Hc due. apply Hc.
Qed.

Lemma run_timely (p : N) (token : string) (es : list Event) :
  timely (run (start p token) es).
Proof.
  assert (∀ s, timely s → timely (run s es)) as Hrun.
  { induction es as [|e es IH]; intros s Hs; [done|].
    simpl. by apply IH, step_timely. }
  apply Hrun. by constructor.
Qed.

(** A timer that is pending was pending, with the same due time, ever
    since its connection exists. *)
Lemma step_pending_back (s : Server) (e : Event) (id : nat) (c1 : Conn) (d : N) :
  id < length (conns s) →
  conns (step s e) !! id = Some c1 → authTimeout c1 = Pending d →
  ∃ c, conns s !! id = Some c ∧ authTimeout c = Pending d.
Proof.
  intros Hid Hc1 Ht. destruct e as [info|id' p|ms|id']; simpl in Hc1.
  - unfold accept in Hc1.
    destruct (verifyClient s info) as [[] ?]; simpl in Hc1; [|by eauto].
    rewrite lookup_app_l in Hc1 by done. by eauto.
  - destruct (bool_decide (id' ∈ clients s)); simpl in Hc1; [|by eauto].
    destruct (decide (id' = id)) as [->|Hne];
      [|rewrite list_lookup_alter_ne in Hc1 by done; by eauto].
    rewrite list_lookup_alter_eq in Hc1.
    destruct (conns s !! id) as [c|] eqn:Hc; [|done].
    simpl in Hc1. injection Hc1 as <-. exists c. split; [done|].
    unfold receive in Ht.
    destruct (first_message_pending c); [|done].
    unfold on_message in Ht. destruct p as [|data]; [done|].
    destruct (get_authToken data) as [v|]; [|done].
    destruct (strict_eq_string v _); [|done].
    simpl in Ht. by destruct (authTimeout c).
  - rewrite list_lookup_fmap in Hc1.
    destruct (conns s !! id) as [c|] eqn:Hc; [|done].
    simpl in Hc1. injection Hc1 as <-. exists c. split; [done|].
    unfold tick in Ht. destruct (authTimeout c) as [d'| |] eqn:Hd;
      [|congruence..].
    case_bool_decide; [|congruence].
    unfold on_timeout in Ht. simpl in Ht. by destruct (authenticated c).
  - destruct (decide (id' = id)) as [->|Hne];
      [|rewrite list_lookup_alter_ne in Hc1 by done; by eauto].
    rewrite list_lookup_alter_eq in Hc1.
    destruct (conns s !! id) as [c|] eqn:Hc; [|done].
    simpl in Hc1. injection Hc1 as <-. by eauto.
Qed.

Lemma run_pending_back (later : list Event) (s : Server) (id : nat)
    (c' : Conn) (d : N) :
  id < length (conns s) →
  conns (run s later) !! id = Some c' → authTimeout c' = Pending d →
  ∃ c, conns s !! id = Some c ∧ authTimeout c = Pending d.
Proof.
  revert s. induction later as [|e later IH]; intros s Hid Hc' Ht; [by eauto|].
  simpl in Hc'. pose proof (step_length s e) as Hlen.
  destruct (IH (step s e)) as (c1 & Hc1 & Ht1); [lia | done | done |].
  by eapply step_pending_back.
Qed.

(** X19: awaiting authentication lasts less than 5000 ms, whatever else
    happens. A connection that exists at some moment is, at every moment
    5000 ms or more later, either authenticated or closed: messages to
    other connections, refused attempts and the order of events cannot
    keep it waiting. *)
Theorem awaiting_auth_is_bounded
    (p : N) (token : string) (es later : list Event) (id : nat) (c : Conn) :
  conns (run (start p token) es) !! id = Some c →
  (now (run (start p token) es) + 5000
   ≤ now (run (run (start p token) es) later))%N →
  ∃ c', conns (run (run (start p token) es) later) !! id = Some c'
        ∧ conn_state c' ≠ AwaitingAuth.
Proof.
  intros Hc Hlate. set (s := run (start p token) es) in *.
  assert (run s later = run (start p token) (es ++ later)) as Hall
    by apply run_app.
  assert (id < length (conns s)) as Hid by by eapply lookup_lt_Some.
  pose proof (run_length later s) as Hlen.
  destruct (lookup_lt_is_Some_2 (conns (run s later)) id) as [c' Hc']; [lia|].
  exists c'. split; [done|]. intros Hwaiting.
  assert (conn_ok c') as (_ & _ & Hnot & _).
  { rewrite Hall in Hc'. by eapply reachable_conn_ok. }
  unfold conn_state in Hwaiting.
  destruct (closed c') eqn:Hclosed; [done|].
  destruct (authenticated c') eqn:Hauth; [done|].
  destruct Hnot as (_ & Hpending); [done|].
  destruct Hpending as (_ & _ & due & Hdue); [done|].
  assert ((now (run s later) < due)%N) as Hfuture.
  { pose proof (run_timely p token (es ++ later)) as Htimely.
    rewrite <- Hall in Htimely. unfold timely in Htimely.
    rewrite Forall_lookup in Htimely.
    by destruct (Htimely id c' Hc' due Hdue). }
  destruct (run_pending_back later s id c' due Hid Hc' Hdue) as (c0 & Hc0 & Hdue0).
  pose proof (run_timely p token es) as Htimely. fold s in Htimely.
  unfold timely in Htimely. rewrite Forall_lookup in Htimely.
  destruct (Htimely id c0 Hc0 due Hdue0) as [_ Hsoon].
  unfold AUTH_TIMEOUT_MS in Hsoon. lia.
Qed.

Lemma awaiting_auth_witness :
  ∃ c',
    conns
      (run (run (start 3000 "7f3a")
              [attempt {| info_origin := None; headers_origin := None;
                          headers_host := Some "localhost:3000" |};
               elapse 1200])
         [attempt {| info_origin := Some "http://attacker.example";
                     headers_origin := None; headers_host := None |};
          elapse 2500; message 7 SyntaxError; elapse 2500]) !! 0 = Some c'
    ∧ conn_state c' ≠ AwaitingAuth.
Proof.
  refine (awaiting_auth_is_bounded 3000 "7f3a"
            [attempt {| info_origin := None; headers_origin := None;
                        headers_host := Some "localhost:3000" |};
             elapse 1200]
            [attempt {| info_origin := Some "http://attacker.example";
                        headers_origin := None; headers_host := None |};
             elapse 2500; message 7 SyntaxError; elapse 2500]
            0 (new_conn 0) eq_refl _).
  by vm_compute.
Defined.

(** *** An active connection *)




(** *** A token after the deadline *)

(** X21: a token can arrive too late and still be taken. A connection
    that was sent nothing is closed with 4401 when its 5000 ms are over;
    until the socket emits ['close'] the once-listener still waits, and a
    first message that carries the token then sets [authenticated] and
    calls [clearTimeout] on the timer that has already run. The socket
    stays closed with 4401. *)
Theorem late_token_is_still_taken
    (p : N) (token : string) (es others : list Event) (info : Info)
    (before after : list (string * JSValue)) :
  (verifyClient (run (start p token) es) info).1 = true →
  quiet (length (conns (run (start p token) es))) others = true →
  "authToken" ∉ after.*1 →
  let s := run (start p token) es in
  let id := length (conns s) in
  let s2 := run (step s (attempt info)) others in
  (now s + 5000 ≤ now s2)%N →
  conns s2 !! id
  = Some {| authenticated := false; first_message_pending := true;
            authTimeout := Fired; clearTimeout_calls := 0;
            close_calls := [(4401%N, "Authentication timeout")];
            closed := Some (by_server 4401 "Authentication timeout") |}
  ∧ conns
      (step s2
         (message id
            (Parsed (JSObject (before ++ ("authToken", JSString token)
                                      :: after))))) !! id
    = Some {| authenticated := true; first_message_pending := false;
              authTimeout := Fired; clearTimeout_calls := 1;
              close_calls := [(4401%N, "Authentication timeout")];
              closed := Some (by_server 4401 "Authentication timeout") |}.
Proof.
  intros Haccept Hquiet Hafter s id s2 Hlate. fold s in Haccept.
  destruct (accept_accepted info s Haccept) as (Hconns & Hclients & Hnow).
  assert (waiting id (now s) (step s (attempt info))) as Hwait.
  { split; simpl.
    - rewrite Hclients. by apply elem_of_union_l, elem_of_singleton.
    - left. rewrite Hnow, Hconns. split; [unfold AUTH_TIMEOUT_MS; lia|].
      by rewrite lookup_app_r, Nat.sub_diag by done. }
  apply (run_waiting _ _ _ others Hquiet) in Hwait.
  fold s in Hwait. fold id in Hwait. fold s2 in Hwait.
  assert (wsAuthToken s2 = token) as Htoken.
  { unfold s2. destruct (run_constants (step s (attempt info)) others) as (_ & -> & _).
    destruct (step_constants s (attempt info)) as (_ & -> & _).
    unfold s. by destruct (run_constants (start p token) es) as (_ & -> & _). }
  destruct Hwait as [Hin Hwait]. unfold AUTH_TIMEOUT_MS in Hwait.
  destruct Hwait as [[? _] | [_ Hc]]; [lia|].
  rewrite timed_out_eq in Hc. split; [done|].
  rewrite (tracked_message s2 id _ _ Hin Hc), Htoken. f_equal.
  unfold receive, on_message. simpl. rewrite own_property_last by done.
  simpl. by rewrite bool_decide_eq_true_2.
Qed.

Lemma late_token_witness :
  conns
    (run (start 3000 "7f3a")
       [attempt {| info_origin := None; headers_origin := None;
                   headers_host := Some "localhost:3000" |};
        elapse 5000;
        message 0 (Parsed (JSObject [("authToken", JSString "7f3a")]))]) !! 0
  = Some {| authenticated := true; first_message_pending := false;
            authTimeout := Fired; clearTimeout_calls := 1;
            close_calls := [(4401%N, "Authentication timeout")];
            closed := Some (by_server 4401 "Authentication timeout") |}.
Proof.
  refine (proj2 (late_token_is_still_taken 3000 "7f3a" [] [elapse 5000]
                   {| info_origin := None; headers_origin := None;
                      headers_host := Some "localhost:3000" |}
                   [] [] _ _ _ _)).
  - reflexivity.
  - reflexivity.
  - apply not_elem_of_nil.
  - by vm_compute.
Defined.

End GatewayExtras.
